(** * Verification of the rt1 first-order radiative-transfer code

    Shallow embedding of [src/rt1/rt1.py] (class [RT1]),
    [src/rt1/scatter.py] (class [Scatter]) and [src/rt1/volume.py] (classes
    [Volume], [LinCombV], [Rayleigh], [HenyeyGreenstein], [HGRayleigh]).  Floats are modelled as real numbers, sympy
    expressions as the small syntax tree [expr] below, and Python exceptions
    through the [outcome] monad. *)

From Stdlib Require Import Reals Lra String Ascii List Arith Lia Bool.
Import ListNotations.
Open Scope R_scope.

(** ** Python exceptions and the error monad *)

Inductive exn : Type :=
| NameError (name : string)
| AttributeError (cls attr : string)
| AssertionError (msg : string)
| IndexError
| TypeError.

Inductive outcome (A : Type) : Type :=
| Ok (a : A)
| Raise (e : exn).
Arguments Ok {A} a.
Arguments Raise {A} e.

Definition bind {A B : Type} (m : outcome A) (k : A -> outcome B) : outcome B :=
  match m with
  | Ok a => k a
  | Raise e => Raise e
  end.

Notation "x <- m ;; k" := (bind m (fun x => k))
  (at level 61, m at next level, right associativity).

(** Sequencing a list of fallible calls, left to right, as a Python list
    comprehension does. *)
Fixpoint mapM {A B : Type} (f : A -> outcome B) (l : list A) : outcome (list B) :=
  match l with
  | [] => Ok []
  | x :: l' => y <- f x ;; ys <- mapM f l' ;; Ok (y :: ys)
  end.

(** Python values that the module namespace of [rt1.py] can bind. *)
Inductive pyval : Type :=
| PyFloat (r : R)
| PyFun (f : R -> R)
| PyNone.

Definition as_float (v : pyval) : outcome R :=
  match v with
  | PyFloat r => Ok r
  | _ => Raise TypeError
  end.

Definition as_fun (v : pyval) : outcome (R -> R) :=
  match v with
  | PyFun f => Ok f
  | _ => Raise TypeError
  end.

(** [sum_{i < n} f i] *)
Fixpoint rsum (f : nat -> R) (n : nat) : R :=
  match n with
  | O => 0
  | S m => rsum f m + f m
  end.

(** ** Symbolic expressions (the sympy objects built by [volume.py]) *)

Module Sym.

Inductive expr : Type :=
| Symbol (name : string)
| Num (r : R)
| Pi
| Add (e1 e2 : expr)
| Sub (e1 e2 : expr)
| Mul (e1 e2 : expr)
| Div (e1 e2 : expr)
| Neg (e : expr)
(** [e ** k.] with an integral float exponent *)
| PowN (e : expr) (k : nat)
(** [e ** r] with a fractional exponent, on a positive base *)
| PowR (e : expr) (r : R)
| Cos (e : expr)
| Sin (e : expr)
(** [sp.legendre(n, x)] for the summation index [n] *)
| Legendre (n : nat) (x : expr)
(** [sp.Sum(body, (n, lo, hi))], unevaluated; the bound index is a binder *)
| Sum (body : nat -> expr) (lo hi : nat).

(** Legendre polynomials by Bonnet's recursion: [legendre_pair n x] is
    [(P_n x, P_(n+1) x)]. *)
Fixpoint legendre_pair (n : nat) (x : R) : R * R :=
  match n with
  | O => (1, x)
  | S m =>
      let (p, q) := legendre_pair m x in
      (q, ((2 * INR m + 3) * x * q - (INR m + 1) * p) / (INR m + 2))
  end.

Definition legendreP (n : nat) (x : R) : R := fst (legendre_pair n x).

(** Numerical substitution of all free symbols ([xreplace] + [evalf]);
    a [Sum] is summed here, not when it is built. *)
Fixpoint eval (env : string -> R) (e : expr) : R :=
  match e with
  | Symbol s => env s
  | Num r => r
  | Pi => PI
  | Add e1 e2 => eval env e1 + eval env e2
  | Sub e1 e2 => eval env e1 - eval env e2
  | Mul e1 e2 => eval env e1 * eval env e2
  | Div e1 e2 => eval env e1 / eval env e2
  | Neg e1 => - eval env e1
  | PowN e1 k => eval env e1 ^ k
  | PowR e1 r => Rpower (eval env e1) r
  | Cos e1 => cos (eval env e1)
  | Sin e1 => sin (eval env e1)
  | Legendre n x => legendreP n (eval env x)
  | Sum body lo hi =>
      (fix go (cnt i : nat) : R :=
         match cnt with
         | O => 0
         | S cnt' => eval env (body i) + go cnt' (S i)
         end) (S hi - lo)%nat lo
  end.



End Sym.

Import Sym.

(** Generalized-angle parameters [a = [a0, a1, a2]]. *)
Definition angle_params : Type := (R * R * R)%type.

(** Modelled from the spec: [Scatter.scat_angle], called by [volume.py]
    but not part of [scatter.py]; the spec (4.1) gives it as
    [a0*cos(theta_0)*cos(theta_ex) + a1*sin(theta_0)*sin(theta_ex)*cos(phi_0)*cos(phi_ex)
     + a2*sin(theta_0)*sin(theta_ex)*sin(phi_0)*sin(phi_ex)]. *)
Definition scat_angle (theta_0 theta_ex phi_0 phi_ex : expr) (a : angle_params) : expr :=
  let '(a0, a1, a2) := a in
  Add (Add (Mul (Mul (Num a0) (Cos theta_0)) (Cos theta_ex))
           (Mul (Mul (Mul (Mul (Num a1) (Sin theta_0)) (Sin theta_ex)) (Cos phi_0)) (Cos phi_ex)))
      (Mul (Mul (Mul (Mul (Num a2) (Sin theta_0)) (Sin theta_ex)) (Sin phi_0)) (Sin phi_ex)).

(** ** [RT1.cos_theta] and [RT1.cos_theta_prime] (rt1.py, A14 and A15) *)

Definition cos_theta (mu_i mu_s phi_i phi_s : R) : R :=
  mu_i * mu_s + sin (acos mu_i) * sin (acos mu_s) * cos (phi_i - phi_s).

Definition cos_theta_prime (mu_i mu_s phi_i phi_s : R) : R :=
  (- mu_i) * mu_s + sin (acos mu_i) * sin (acos mu_s) * cos (phi_i - phi_s).

(** ** Scattering-angle cosines of [Scatter] (scatter.py) *)

Module Scat.

(** [Scatter.thetaBRDF] *)
Definition thetaBRDF (thetai thetas phii phis : expr) : expr :=
  Add (Add (Mul (Cos thetai) (Cos thetas))
           (Mul (Mul (Mul (Sin thetai) (Sin thetas)) (Cos phii)) (Cos phis)))
      (Mul (Mul (Mul (Sin thetai) (Sin thetas)) (Sin phii)) (Sin phis)).

(** [Scatter.thetap] *)
Definition thetap (thetai thetas phii phis : expr) : expr :=
  Add (Add (Mul (Neg (Cos thetai)) (Cos thetas))
           (Mul (Mul (Mul (Sin thetai) (Sin thetas)) (Cos phii)) (Cos phis)))
      (Mul (Mul (Mul (Sin thetai) (Sin thetas)) (Sin phii)) (Sin phis)).

End Scat.

(** ** Volume phase functions (volume.py) *)

Module Vol.

(** A [Volume] instance.  [legcoefs] is the closed form in the index [n]
    ([None] when the instance never sets the attribute); the instance
    attribute [legexpansion_attr] shadows the method [legexpansion] when
    present, as [LinCombV._Vcombiner] does on the combined object. *)
Record Volume : Type := mkVolume {
  omega : option R;
  tau : option R;
  a : angle_params;
  ncoefs : nat;
  legcoefs : option (nat -> R);
  func : expr;
  legexpansion_attr : option (R -> R -> R -> R -> string -> outcome expr)
}.

(** [getattr(self, 'a', [-1., 1., 1.])] in [Volume.__init__] *)
Definition default_a : angle_params := (-1, 1, 1).

(** One character of the geometry string: 'v' leaves a symbol, 'f' takes
    the numerical value. *)
Definition geometry_slot (geometry : string) (i : nat) (var fixed : expr)
    (msg : string) : outcome expr :=
  match String.get i geometry with
  | None => Raise IndexError
  | Some c =>
      if ascii_dec c "v" then Ok var
      else if ascii_dec c "f" then Ok fixed
      else Raise (AssertionError msg)
  end.

(** Lines 117-150 of [Volume.legexpansion]: the angles used for
    [(theta_0, theta_ex, phi_0, phi_ex)]. *)
Definition resolve_geometry (geometry : string) (t_0 t_ex p_0 p_ex : R)
    : outcome (expr * expr * expr * expr) :=
  if string_dec geometry "mono" then
    let theta_0 := Symbol "theta_0" in
    let theta_ex := theta_0 in
    let phi_0 := Num p_0 in
    let phi_ex := Add (Num p_0) Pi in
    Ok (theta_0, theta_ex, phi_0, phi_ex)
  else
    theta_0 <- geometry_slot geometry 0 (Symbol "theta_0") (Num t_0)
                 "wrong choice of theta_i geometry" ;;
    theta_ex <- geometry_slot geometry 1 (Symbol "theta_ex") (Num t_ex)
                 "wrong choice of theta_ex geometry" ;;
    phi_0 <- geometry_slot geometry 2 (Symbol "phi_0") (Num p_0)
                 "wrong choice of phi_i geometry" ;;
    phi_ex <- geometry_slot geometry 3 (Symbol "phi_ex") (Num p_ex)
                 "wrong choice of phi_ex geometry" ;;
    Ok (theta_0, theta_ex, phi_0, phi_ex).

Definition get_legcoefs (self : Volume) : outcome (nat -> R) :=
  match legcoefs self with
  | Some c => Ok c
  | None => Raise (AttributeError "Volume" "legcoefs")
  end.

(** [Volume.legexpansion] *)
Definition legexpansion (self : Volume) (t_0 t_ex p_0 p_ex : R) (geometry : string)
    : outcome expr :=
  if Nat.ltb 0 (ncoefs self) then
    let theta_s := Symbol "theta_s" in
    let phi_s := Symbol "phi_s" in
    let NP := ncoefs self in
    angles <- resolve_geometry geometry t_0 t_ex p_0 p_ex ;;
    let '(theta_0, theta_ex, phi_0, phi_ex) := angles in
    c <- get_legcoefs self ;;
    Ok (Sum (fun n => Mul (Num (c n))
                          (Legendre n (scat_angle (Sub Pi theta_0) theta_s phi_0 phi_s (a self))))
            0 (NP - 1))
  else Raise (AssertionError "").

(** Python attribute lookup [V.legexpansion(...)]: instance attribute first,
    then the class method. *)
Definition call_legexpansion (V : Volume) (t_0 t_ex p_0 p_ex : R) (geometry : string)
    : outcome expr :=
  match legexpansion_attr V with
  | Some f => f t_0 t_ex p_0 p_ex geometry
  | None => legexpansion V t_0 t_ex p_0 p_ex geometry
  end.


(** The arguments [(theta_0, theta_ex, phi_0, phi_ex)] of the lambdified
    phase function; the phase functions' expressions use no other symbol. *)
Definition angle_env (t_0 t_ex p_0 p_ex : R) (s : string) : R :=
  if string_dec s "theta_0" then t_0
  else if string_dec s "theta_ex" then t_ex
  else if string_dec s "phi_0" then p_0
  else if string_dec s "phi_ex" then p_ex
  else 0.

(** [Volume.p] on scalar angles. *)
Definition p (self : Volume) (t_0 t_ex p_0 p_ex : R) : R :=
  eval (angle_env t_0 t_ex p_0 p_ex) (func self).

(** [sp.KroneckerDelta(i, n)] *)
Definition kronecker (i j : nat) : R := if Nat.eqb i j then 1 else 0.

(** The symbolic phase-function argument [scat_angle(theta_0, theta_ex, phi_0, phi_ex, a)] *)
Definition scat_x (a : angle_params) : expr :=
  scat_angle (Symbol "theta_0") (Symbol "theta_ex") (Symbol "phi_0") (Symbol "phi_ex") a.

(** [Rayleigh]: [Volume.__init__] pops only [omega] and [tau], so [a] keeps
    its default. *)
Definition Rayleigh_legcoefs (n : nat) : R :=
  (3 / (16 * PI)) * ((4 / 3) * kronecker 0 n + (2 / 3) * kronecker 2 n).

Definition Rayleigh (omega tau : option R) : Volume :=
  {| omega := omega; tau := tau; a := default_a;
     ncoefs := 3%nat;
     legcoefs := Some Rayleigh_legcoefs;
     func := Mul (Div (Num 3) (Mul (Num 16) Pi)) (Add (Num 1) (PowN (scat_x default_a) 2));
     legexpansion_attr := None |}.

(** [HenyeyGreenstein] *)
Definition HenyeyGreenstein_legcoefs (t : R) (n : nat) : R :=
  (1 / (4 * PI)) * (2 * INR n + 1) * t ^ n.

(** The instance built once the constructor's assertions hold. *)
Definition HenyeyGreenstein_volume (t : R) (ncoefs : nat) (a : angle_params)
    (omega tau : option R) : Volume :=
  {| omega := omega; tau := tau; a := a;
     ncoefs := ncoefs;
     legcoefs := Some (HenyeyGreenstein_legcoefs t);
     func := Div (Num (1 - t ^ 2))
                 (Mul (Mul (Num 4) Pi)
                      (PowR (Sub (Num (1 + t ^ 2)) (Mul (Num (2 * t)) (scat_x a))) (3 / 2)));
     legexpansion_attr := None |}.

(** [HenyeyGreenstein(t, ncoefs, a, omega=..., tau=...)]; [assert self.ncoefs > 0]. *)
Definition HenyeyGreenstein (t : R) (ncoefs : nat) (a : angle_params) (omega tau : option R)
    : outcome Volume :=
  if Nat.ltb 0 ncoefs then Ok (HenyeyGreenstein_volume t ncoefs a omega tau)
  else Raise (AssertionError "").

(** [HGRayleigh]: the [Piecewise] coefficients, branch [n < 2] first. *)
Definition HGRayleigh_legcoefs (t : R) (n : nat) : R :=
  let m := INR n in
  if Nat.ltb n 2 then
    3 / (8 * PI) * 1 / (2 + t ^ 2)
      * ((m + 2) * (m + 1) / (2 * m + 3) * t ^ (n + 2)
         + (m + 1) ^ 2 / (2 * m + 3) * t ^ n
         + (5 * m ^ 2 - 1) / (2 * m - 1) * t ^ n)
  else
    3 / (8 * PI) * 1 / (2 + t ^ 2)
      * (m * (m - 1) / (2 * m - 1) * t ^ (n - 2)
         + (m + 2) * (m + 1) / (2 * m + 3) * t ^ (n + 2)
         + (m + 1) ^ 2 / (2 * m + 3) * t ^ n
         + (5 * m ^ 2 - 1) / (2 * m - 1) * t ^ n).

Definition HGRayleigh_volume (t : R) (ncoefs : nat) (a : angle_params)
    (omega tau : option R) : Volume :=
  let x := scat_x a in
  {| omega := omega; tau := tau; a := a;
     ncoefs := ncoefs;
     legcoefs := Some (HGRayleigh_legcoefs t);
     func := Div (Mul (Mul (Div (Mul (Div (Num 3) (Mul (Num 8) Pi)) (Num 1)) (Num (2 + t ^ 2)))
                           (Add (Num 1) (PowN x 2)))
                      (Num (1 - t ^ 2)))
                 (PowR (Sub (Num (1 + t ^ 2)) (Mul (Num (2 * t)) x)) (3 / 2));
     legexpansion_attr := None |}.

(** [HGRayleigh(t, ncoefs, a, omega=..., tau=...)]; [assert self.ncoefs > 0]. *)
Definition HGRayleigh (t : R) (ncoefs : nat) (a : angle_params) (omega tau : option R)
    : outcome Volume :=
  if Nat.ltb 0 ncoefs then Ok (HGRayleigh_volume t ncoefs a omega tau)
  else Raise (AssertionError "").

End Vol.

(** ** Linear combinations of phase functions ([LinCombV], volume.py) *)

Module LinComb.
Import Vol.

(** One entry [[weight, Volume]] of [Vchoices]. *)
Definition Vchoice : Type := (R * Volume)%type.

Definition Reqb (x y : R) : bool := if Req_EM_T x y then true else false.

(** Element-wise comparison of two [a] triples followed by [.all()]. *)
Definition a_eqb (a1 a2 : angle_params) : bool :=
  let '(x0, x1, x2) := a1 in
  let '(y0, y1, y2) := a2 in
  Reqb x0 y0 && Reqb x1 y1 && Reqb x2 y2.

(** [np.sum([V[0] for V in Vchoices])] *)
Definition weights_sum (Vchoices : list Vchoice) : R :=
  fold_right (fun V acc => fst V + acc) 0 Vchoices.

(** [np.testing.assert_almost_equal(actual, desired)] with its default
    [decimal=7]: it raises when [abs(desired - actual) >= 1.5 * 10**(-7)]. *)
Definition assert_almost_equal (actual desired : R) : outcome unit :=
  if Rle_dec (15 / 10 ^ 8) (Rabs (desired - actual))
  then Raise (AssertionError "The sum of the phase-function weighting-factors must equate to 1 !")
  else Ok tt.

(** [np.where((array of a's == tuple(aV)).all(axis=1))[0]], counting from [i]. *)
Fixpoint indices_with_a (aV : angle_params) (Vchoices : list Vchoice) (i : nat) : list nat :=
  match Vchoices with
  | [] => []
  | V :: Vs =>
      if a_eqb (a (snd V)) aV then i :: indices_with_a aV Vs (S i)
      else indices_with_a aV Vs (S i)
  end.

(** [equals] and [equal_a = list({tuple(row) for row in equals})]; CPython's
    set iteration order is unspecified, [nodup] fixes one order. *)
Definition equals (Vchoices : list Vchoice) : list (list nat) :=
  map (fun V => indices_with_a (a (snd V)) Vchoices 0) Vchoices.

Definition equal_a (Vchoices : list Vchoice) : list (list nat) :=
  nodup (list_eq_dec Nat.eq_dec) (equals Vchoices).

(** [np.take(Vchoices, idx, axis=0)] *)
Definition np_take (Vchoices : list Vchoice) (idx : list nat) : outcome (list Vchoice) :=
  mapM (fun j => match nth_error Vchoices j with
                 | Some V => Ok V
                 | None => Raise IndexError
                 end) idx.

(** [max(...)] of a non-empty list of [ncoefs] *)
Definition max_ncoefs (Vs : list Vchoice) : nat :=
  list_max (map (fun V => ncoefs (snd V)) Vs).

(** [Phasefunction(omega=..., tau=...)]: [func] and [legcoefs] start at [0.];
    [ncoefs] is assigned by the caller before any use. *)
Definition Phasefunction (omega tau : option R) (ncoefs : nat) : Volume :=
  {| omega := omega; tau := tau; a := default_a; ncoefs := ncoefs;
     legcoefs := Some (fun _ => 0); func := Num 0; legexpansion_attr := None |}.

(** One iteration of [for V in Vequal]:
    [Vdummy.a = V[1].a],
    [Vdummy._func = Vdummy._func + V[1]._func * V[0]],
    [Vdummy.legcoefs = Vdummy.legcoefs + V[1].legcoefs * V[0]]. *)
Definition add_member (Vdummy : Volume) (V : Vchoice) : outcome Volume :=
  c0 <- get_legcoefs Vdummy ;;
  c1 <- get_legcoefs (snd V) ;;
  Ok {| omega := omega Vdummy; tau := tau Vdummy; a := a (snd V);
        ncoefs := ncoefs Vdummy;
        legcoefs := Some (fun n => c0 n + c1 n * fst V);
        func := Add (func Vdummy) (Mul (func (snd V)) (Num (fst V)));
        legexpansion_attr := legexpansion_attr Vdummy |}.

Fixpoint add_members (Vdummy : Volume) (Vequal : list Vchoice) : outcome Volume :=
  match Vequal with
  | [] => Ok Vdummy
  | V :: Vs => Vd <- add_member Vdummy V ;; add_members Vd Vs
  end.

(** The body of [for i in range(0, len(equal_a))]: the per-class
    intermediate phase function [Vdummy]. *)
Definition class_dummy (Vchoices : list Vchoice) (cls : list nat) : outcome Volume :=
  Vequal <- np_take Vchoices cls ;;
  add_members (Phasefunction None None (max_ncoefs Vequal)) Vequal.

(** [np.sum] over a list of sympy expressions (object array reduction). *)
Definition np_sum (es : list expr) : expr :=
  match es with
  | [] => Num 0
  | e :: es' => fold_left Add es' e
  end.

(** The lambda assigned to [Vcomb.legexpansion]. *)
Definition combined_legexpansion (dummies : list Volume)
    (t_0 t_ex p_0 p_ex : R) (geometry : string) : outcome expr :=
  es <- mapM (fun Vd => legexpansion Vd t_0 t_ex p_0 p_ex geometry) dummies ;;
  Ok (np_sum es).

(** [LinCombV._Vcombiner] *)
Definition _Vcombiner (self_omega self_tau : option R) (Vchoices : list Vchoice)
    : outcome Volume :=
  _ <- assert_almost_equal (weights_sum Vchoices) 1 ;;
  let classes := equal_a Vchoices in
  let Vcomb_ncoefs := max_ncoefs Vchoices in
  dummies <- mapM (class_dummy Vchoices) classes ;;
  let Vcomb_func :=
    fold_left (fun acc V => Add acc (Mul (func (snd V)) (Num (fst V)))) Vchoices (Num 0) in
  Ok {| omega := self_omega; tau := self_tau; a := default_a;
        ncoefs := Vcomb_ncoefs;
        legcoefs := Some (fun _ => 0);
        func := Vcomb_func;
        legexpansion_attr := Some (combined_legexpansion dummies) |}.

(** [LinCombV(Vchoices=..., omega=..., tau=...)]: [_set_function] and
    [_set_legexpansion] each call [_Vcombiner]; [legcoefs] is never set. *)
Definition LinCombV (Vchoices : list Vchoice) (omega tau : option R) : outcome Volume :=
  c1 <- _Vcombiner omega tau Vchoices ;;
  c2 <- _Vcombiner omega tau Vchoices ;;
  c3 <- _Vcombiner omega tau Vchoices ;;
  Ok {| omega := omega; tau := tau; a := default_a;
        ncoefs := ncoefs c2; legcoefs := None; func := func c1;
        legexpansion_attr := legexpansion_attr c3 |}.

(** Helpers for stating properties: the default row of [nth], the [a] of
    row [i], the value of a component's coefficient at [n], and a sum of
    reals. *)
Definition dflt_choice : Vchoice := (0, Phasefunction None None 0).

Definition a_at (Vchoices : list Vchoice) (i : nat) : angle_params :=
  a (snd (nth i Vchoices dflt_choice)).

Definition coef_at (V : Volume) (n : nat) : R :=
  match legcoefs V with
  | Some c => c n
  | None => 0
  end.

Definition Rlist_sum (l : list R) : R := fold_right Rplus 0 l.

End LinComb.

(** ** The model class [RT1] (rt1.py) *)

Module RT1m.
Import Vol.

(** The surface collaborator: only [brdf] is used. *)
Record Surface : Type := mkSurface { brdf : R -> R }.

(** An [RT1] instance after [__init__]; [Fn] is the coefficient
    collaborator, [Fn.fn(nmax)] giving the sequence [fn]. *)
Record RT1 : Type := mkRT1 {
  I0 : R;
  mu_0 : R;
  mu_ex : R;
  RV : Volume;
  SRF : Surface;
  _nmax : nat;
  Fn : option (nat -> list R)
}.

(** [RT1.__init__] with its two assertions. *)
Definition RT1_init (I0 mu_0 mu_ex : R) (RV : option Volume) (SRF : option Surface)
    (nmax : nat) (Fn : option (nat -> list R)) : outcome RT1 :=
  match RV, SRF with
  | None, _ => Raise (AssertionError "ERROR: needs to provide volume information")
  | _, None => Raise (AssertionError "ERROR: needs to provide surface information")
  | Some V, Some Sf => Ok (mkRT1 I0 mu_0 mu_ex V Sf nmax Fn)
  end.

(** Attributes an instance carries. *)
Definition rt1_instance_attrs : list string :=
  ["I0"; "mu_0"; "mu_ex"; "RV"; "SRF"; "_nmax"; "Fn"]%string.

(** [self.<name>] read as a float. *)
Definition getattr_float (self : RT1) (name : string) : outcome R :=
  if string_dec name "I0" then Ok (I0 self)
  else if string_dec name "mu_0" then Ok (mu_0 self)
  else if string_dec name "mu_ex" then Ok (mu_ex self)
  else if in_dec string_dec name rt1_instance_attrs then Raise TypeError
  else Raise (AttributeError "RT1" name).

(** Module namespace of [rt1.py] once its top-level script has bound
    [I0 = 1.]; neither [todo] nor [expi] is bound or imported there. *)
Definition rt1_globals : list (string * pyval) := [("I0"%string, PyFloat 1)].

Fixpoint lookup (name : string) (env : list (string * pyval)) : option pyval :=
  match env with
  | [] => None
  | (k, v) :: env' => if string_dec k name then Some v else lookup name env'
  end.

Definition load_global (name : string) : outcome pyval :=
  match lookup name rt1_globals with
  | Some v => Ok v
  | None => Raise (NameError name)
  end.

(** [self.RV.tau] used as a number ([None] fails in the arithmetic). *)
Definition rv_tau (self : RT1) : outcome R :=
  match tau (RV self) with
  | Some t => Ok t
  | None => Raise TypeError
  end.

(** [RT1.surface] *)
Definition surface (self : RT1) : outcome R :=
  let phi_i := 0 in
  let phi_s := 0 in
  let ctheta := cos_theta (- mu_0 self) (mu_ex self) phi_i phi_s in
  i0v <- load_global "I0" ;;
  i0 <- as_float i0v ;;
  tau_ <- getattr_float self "tau" ;;
  Ok (i0 * exp (- (tau_ / mu_0 self) - tau_ / mu_ex self) * mu_0 self
         * brdf (SRF self) ctheta).

(** The surface term of the spec (4.6) on the instance's [I0] and the
    volume's [tau]. *)
Definition surfaceTerm_spec (self : RT1) : outcome R :=
  t <- rv_tau self ;;
  Ok (I0 self * exp (- (t / mu_0 self) - t / mu_ex self) * mu_0 self
        * brdf (SRF self) (cos_theta (- mu_0 self) (mu_ex self) 0 0)).

(** [fn[n]] *)
Definition list_index (l : list R) (n : nat) : outcome R :=
  match nth_error l n with
  | Some x => Ok x
  | None => Raise IndexError
  end.

Definition get_Fn (self : RT1) : outcome (nat -> list R) :=
  match Fn self with
  | Some f => Ok f
  | None => Raise (AttributeError "NoneType" "fn")
  end.

(** [for k in xrange(1, (n+1)+1)] in [_calc_Fint] *)
Fixpoint Fint_inner (self : RT1) (mu1 : R) (ks : list nat) (S2 : R) : outcome R :=
  match ks with
  | [] => Ok S2
  | k :: ks' =>
      E_k1v <- load_global "todo" ;;
      E_k1 <- as_float E_k1v ;;
      t <- rv_tau self ;;
      Fint_inner self mu1 ks'
        (S2 + powerRZ mu1 (- Z.of_nat k) * (E_k1 - exp (- t / mu1) / INR k))
  end.

(** [for n in xrange(self._nmax)] in [_calc_Fint] *)
Fixpoint Fint_outer (self : RT1) (mu1 : R) (fn : list R) (ns : list nat) (S_ : R)
    : outcome R :=
  match ns with
  | [] => Ok S_
  | n :: ns' =>
      S2 <- Fint_inner self mu1 (seq 1 (S n)) 0 ;;
      fn_n <- list_index fn n ;;
      t <- rv_tau self ;;
      expi_v <- load_global "expi" ;;
      expi <- as_fun expi_v ;;
      Fint_outer self mu1 fn ns'
        (S_ + fn_n * mu1 ^ (S n)
               * (exp (- t / mu1) * ln (mu1 / (1 - mu1)) - expi (- t)
                  + exp (- t / mu1) * expi (t / mu1 - t) + S2))
  end.

(** [RT1._calc_Fint]: the body has no [return] statement.  The local [S]
    is [S_] here. *)
Definition _calc_Fint (self : RT1) (mu1 mu2 : R) : outcome pyval :=
  let S_ := 0 in
  fnf <- get_Fn self ;;
  let fn := fnf (_nmax self) in
  _ <- Fint_outer self mu1 fn (seq 0 (_nmax self)) S_ ;;
  Ok PyNone.

(** [self.RV.omega] used as a number. *)
Definition rv_omega (self : RT1) : outcome R :=
  match omega (RV self) with
  | Some w => Ok w
  | None => Raise TypeError
  end.

(** [RT1.volume]: [self.omega] is read second; past it, [self.tau] and
    [self.phase] (an attribute [RT1] lacks, looked up before its argument)
    follow. *)
Definition volume (self : RT1) : outcome R :=
  i0 <- getattr_float self "I0" ;;
  om <- getattr_float self "omega" ;;
  let f := i0 * om * mu_0 self / (mu_0 self + mu_ex self) in
  t <- getattr_float self "tau" ;;
  Raise (AttributeError "RT1" "phase").

(** [RT1.interaction] *)
Definition interaction (self : RT1) : outcome R :=
  Fint1 <- _calc_Fint self (mu_0 self) (mu_ex self) ;;
  Fint2 <- _calc_Fint self (mu_ex self) (mu_0 self) ;;
  om <- rv_omega self ;;
  t <- rv_tau self ;;
  f1 <- as_float Fint1 ;;
  f2 <- as_float Fint2 ;;
  Ok (I0 self * mu_0 self * om * (exp (- t / mu_ex self) * f1 + exp (- t / mu_0 self) * f2)).

(** [RT1.calc]: [(total, Isurf, Ivol, Iint)]. *)
Definition calc (self : RT1) : outcome (R * R * R * R) :=
  Isurf <- surface self ;;
  Ivol <- volume self ;;
  Iint <- interaction self ;;
  Ok (Isurf + Ivol + Iint, Isurf, Ivol, Iint).

Section FintSpec.

(** The exponential integral [Ei] and the generalized exponential
    integral [E_n]. *)
Variable Ei : R -> R.
Variable En : nat -> R -> R.

(** Eq. 37 as the spec (4.5) states it. *)
Definition S2_spec (tau mu1 : R) (n : nat) : R :=
  rsum (fun i => let k := S i in
                 powerRZ mu1 (- Z.of_nat k) * (En (S k) (tau / mu1) - exp (- tau / mu1) / INR k))
       (S n).

Definition Fint_spec (tau mu1 : R) (fn : list R) (nmax : nat) : R :=
  rsum (fun n => nth n fn 0 * mu1 ^ (S n)
                   * (exp (- tau / mu1) * ln (mu1 / (1 - mu1)) - Ei (- tau)
                      + exp (- tau / mu1) * Ei (tau / mu1 - tau) + S2_spec tau mu1 n))
       nmax.

End FintSpec.

End RT1m.

(** ** Concrete inputs *)

(** A Rayleigh volume with [omega = 0.3], [tau = 0.7]. *)
Definition example_rayleigh : Vol.Volume := Vol.Rayleigh (Some (3/10)) (Some (7/10)).

(** A Henyey-Greenstein volume with [t = 0] and [ncoefs = 10]. *)
Definition example_hg0 : Vol.Volume := Vol.HenyeyGreenstein_volume 0 10 Vol.default_a None None.

(** The failing input of claims C1 and C3: [I0 = 2], [mu_0 = mu_ex = 0.5],
    a Rayleigh volume with [tau = 0.7], [omega = 0.3], an isotropic surface
    [brdf = 1/pi], [nmax = 10] and [fn = [1, ..., 1]]. *)
Definition example_rt1 : RT1m.RT1 :=
  {| RT1m.I0 := 2; RT1m.mu_0 := 1/2; RT1m.mu_ex := 1/2;
     RT1m.RV := Vol.Rayleigh (Some (3/10)) (Some (7/10));
     RT1m.SRF := {| RT1m.brdf := fun _ => 1 / PI |};
     RT1m._nmax := 10;
     RT1m.Fn := Some (fun n => repeat 1 n) |}.

(** * Properties *)

(** ** Scattering geometry *)

(** Claim C9: for [mu_i, mu_s] in [[-1,1]], [cos_theta] is
    [mu_i*mu_s + sqrt(1-mu_i^2)*sqrt(1-mu_s^2)*cos(phi_i-phi_s)],
    [cos_theta_prime] is the same with the first term negated, and with equal
    azimuths the cosine factor disappears. *)
Theorem cos_theta_closed_form (mu_i mu_s phi_i phi_s : R) :
  -1 <= mu_i <= 1 -> -1 <= mu_s <= 1 ->
  cos_theta mu_i mu_s phi_i phi_s
    = mu_i * mu_s + sqrt (1 - mu_i ^ 2) * sqrt (1 - mu_s ^ 2) * cos (phi_i - phi_s)
  /\ cos_theta_prime mu_i mu_s phi_i phi_s
    = - (mu_i * mu_s) + sqrt (1 - mu_i ^ 2) * sqrt (1 - mu_s ^ 2) * cos (phi_i - phi_s)
  /\ cos_theta mu_i mu_s phi_i phi_i
    = mu_i * mu_s + sqrt (1 - mu_i ^ 2) * sqrt (1 - mu_s ^ 2).
Proof.
  intros Hi Hs.
  unfold cos_theta, cos_theta_prime.
  rewrite (sin_acos mu_i Hi), (sin_acos mu_s Hs).
  assert (Hsq : forall x, x² = x ^ 2) by (intros; unfold Rsqr; ring).
  rewrite !Hsq.
  replace (phi_i - phi_i) with 0 by ring.
  rewrite cos_0.
  repeat split; ring.
Qed.

Lemma cos_theta_closed_form_witness :
  (-1 <= 1/2 <= 1) /\ (-1 <= 0 <= 1) /\
  cos_theta (1/2) 0 0 0 = 1/2 * 0 + sqrt (1 - (1/2) ^ 2) * sqrt (1 - 0 ^ 2) * cos (0 - 0).
Proof.
  split; [lra | split; [lra | ]].
  apply (cos_theta_closed_form (1/2) 0 0 0); lra.
Defined.

(** ** Legendre coefficients of the phase functions *)

(** Claim C7: a Rayleigh phase function keeps [ncoefs = 3] and its
    coefficients are [3/(16 pi)*4/3] at [n = 0], [3/(16 pi)*2/3] at [n = 2]
    and [0] at every other [n]. *)
Theorem Rayleigh_legcoefs_values (omega tau : option R) :
  Vol.ncoefs (Vol.Rayleigh omega tau) = 3%nat /\
  exists c, Vol.legcoefs (Vol.Rayleigh omega tau) = Some c
    /\ c 0%nat = 3 / (16 * PI) * (4 / 3)
    /\ c 1%nat = 0
    /\ c 2%nat = 3 / (16 * PI) * (2 / 3)
    /\ (forall n : nat, n <> 0%nat -> n <> 2%nat -> c n = 0).
Proof.
  split; [reflexivity |].
  exists Vol.Rayleigh_legcoefs.
  unfold Vol.Rayleigh_legcoefs, Vol.kronecker.
  split; [reflexivity |].
  split; [simpl; ring |].
  split; [simpl; ring |].
  split; [simpl; ring |].
  intros n H0 H2.
  destruct (Nat.eqb_spec 0 n); [congruence |].
  destruct (Nat.eqb_spec 2 n); [congruence |].
  ring.
Qed.

(** Claim C8: a Henyey-Greenstein phase function has coefficients
    [(2n+1)/(4 pi) * t^n]; for [t = 0] they are [1/(4 pi)] at [n = 0] and
    [0] beyond. *)
Theorem HenyeyGreenstein_legcoefs_values (t : R) (nc : nat) (a : angle_params)
    (omega tau : option R) (V : Vol.Volume) :
  Vol.HenyeyGreenstein t nc a omega tau = Ok V ->
  exists c, Vol.legcoefs V = Some c
    /\ (forall n : nat, c n = (2 * INR n + 1) / (4 * PI) * t ^ n)
    /\ (t = 0 -> c 0%nat = 1 / (4 * PI) /\ forall n : nat, (0 < n)%nat -> c n = 0).
Proof.
  unfold Vol.HenyeyGreenstein.
  destruct (Nat.ltb 0 nc); intros H; inversion H; subst; clear H.
  exists (Vol.HenyeyGreenstein_legcoefs t).
  unfold Vol.HenyeyGreenstein_volume; simpl.
  unfold Vol.HenyeyGreenstein_legcoefs.
  split; [reflexivity | split].
  - intros n. unfold Rdiv. ring.
  - intros ->. split.
    + simpl. field. apply PI_neq0.
    + intros n Hn. destruct n as [| m]; [lia |].
      simpl. ring.
Qed.

Lemma HenyeyGreenstein_legcoefs_values_witness :
  exists V, Vol.HenyeyGreenstein 0 10 Vol.default_a (Some (3/10)) (Some (7/10)) = Ok V
    /\ exists c, Vol.legcoefs V = Some c
    /\ (forall n : nat, c n = (2 * INR n + 1) / (4 * PI) * 0 ^ n)
    /\ (0 = 0 -> c 0%nat = 1 / (4 * PI) /\ forall n : nat, (0 < n)%nat -> c n = 0).
Proof.
  eexists. split; [reflexivity |].
  apply (HenyeyGreenstein_legcoefs_values 0 10 Vol.default_a (Some (3/10)) (Some (7/10))).
  reflexivity.
Defined.

(** ** The model class [RT1] *)

(** Claim C3: [surface()] is meant to be
    [I0 * exp(-tau/mu_0 - tau/mu_ex) * mu_0 * SRF.brdf(cos_theta(-mu_0, mu_ex, 0, 0))]
    on [self.I0] and [self.RV.tau].  The code reads [self.tau], which an
    [RT1] instance does not have, so every call raises [AttributeError]
    and never returns the term of the spec. *)
Theorem surface_reads_missing_tau (self : RT1m.RT1) :
  RT1m.surface self = Raise (AttributeError "RT1" "tau")
  /\ forall v : R, RT1m.surfaceTerm_spec self = Ok v -> RT1m.surface self <> Ok v.
Proof.
  assert (H : RT1m.surface self = Raise (AttributeError "RT1" "tau")) by reflexivity.
  split; [exact H |].
  intros v _. rewrite H. discriminate.
Qed.

Lemma example_rt1_surface_spec :
  RT1m.surfaceTerm_spec example_rt1
    = Ok (2 * exp (- (7/10 / (1/2)) - 7/10 / (1/2)) * (1/2) * (1 / PI))
  /\ RT1m.surface example_rt1 = Raise (AttributeError "RT1" "tau").
Proof. split; reflexivity. Qed.

(** Claim C1: for [nmax > 0] the interaction coefficient [_calc_Fint] is
    meant to return the truncated series of eq. 37.  The code binds
    [E_k1 = todo], a name the module never defines, in the first inner
    iteration, so it raises [NameError]; it also has no [return]. *)
Theorem calc_Fint_raises_NameError (self : RT1m.RT1) (mu1 mu2 : R) (fnf : nat -> list R) :
  RT1m.Fn self = Some fnf -> (0 < RT1m._nmax self)%nat ->
  RT1m._calc_Fint self mu1 mu2 = Raise (NameError "todo")
  /\ forall (Ei : R -> R) (En : nat -> R -> R) (tau : R),
       RT1m._calc_Fint self mu1 mu2
         <> Ok (PyFloat (RT1m.Fint_spec Ei En tau mu1 (fnf (RT1m._nmax self)) (RT1m._nmax self))).
Proof.
  intros HFn Hn.
  assert (H : RT1m._calc_Fint self mu1 mu2 = Raise (NameError "todo")).
  { unfold RT1m._calc_Fint, RT1m.get_Fn. rewrite HFn.
    destruct (RT1m._nmax self) as [| m]; [lia |].
    reflexivity. }
  split; [exact H |].
  intros Ei En tau. rewrite H. discriminate.
Qed.

Lemma calc_Fint_raises_NameError_witness :
  RT1m.Fn example_rt1 = Some (fun n => repeat 1 n) /\ (0 < RT1m._nmax example_rt1)%nat /\
  RT1m._calc_Fint example_rt1 (1/2) (1/2) = Raise (NameError "todo").
Proof.
  split; [reflexivity | split; [simpl; lia |]].
  apply (calc_Fint_raises_NameError example_rt1 (1/2) (1/2) (fun n => repeat 1 n));
    [reflexivity | simpl; lia].
Defined.

(** ** The Legendre-expansion engine [Volume.legexpansion] *)

Lemma rsum_ext (f g : nat -> R) (n : nat) :
  (forall i, f i = g i) -> rsum f n = rsum g n.
Proof.
  intros H. induction n as [| n IH]; simpl; [reflexivity |].
  rewrite IH, H. reflexivity.
Qed.

Lemma rsum_first (f : nat -> R) (n : nat) :
  rsum f (S n) = f 0%nat + rsum (fun i => f (S i)) n.
Proof.
  induction n as [| n IH].
  - simpl. ring.
  - change (rsum f (S (S n))) with (rsum f (S n) + f (S n)).
    rewrite IH. simpl. ring.
Qed.

(** Numerical substitution sums an unevaluated [Sum] over [lo..hi]. *)
Lemma eval_Sum (env : string -> R) (body : nat -> expr) (lo hi : nat) :
  eval env (Sum body lo hi) = rsum (fun j => eval env (body (lo + j)%nat)) (S hi - lo).
Proof.
  cbn [eval].
  generalize (S hi - lo)%nat as cnt.
  intros cnt. revert lo.
  induction cnt as [| cnt IH]; intros lo; [reflexivity |].
  rewrite rsum_first, IH, Nat.add_0_r.
  f_equal. apply rsum_ext. intros i. f_equal. f_equal. lia.
Qed.

(** The geometry modes: "mono" or four characters each 'f' or 'v'. *)
Definition mode_char (c : ascii) : Prop := c = "f"%char \/ c = "v"%char.

Inductive geometry_mode : string -> Prop :=
| gm_mono : geometry_mode "mono"
| gm_mask (c0 c1 c2 c3 : ascii) :
    mode_char c0 -> mode_char c1 -> mode_char c2 -> mode_char c3 ->
    geometry_mode (String c0 (String c1 (String c2 (String c3 EmptyString)))).

(** The incidence angles a geometry mode substitutes: a symbol or the
    caller's number. *)
Lemma resolve_geometry_mode (geometry : string) (t_0 t_ex p_0 p_ex : R) :
  geometry_mode geometry ->
  exists theta_0 theta_ex phi_0 phi_ex,
    Vol.resolve_geometry geometry t_0 t_ex p_0 p_ex = Ok (theta_0, theta_ex, phi_0, phi_ex)
    /\ (theta_0 = Symbol "theta_0" \/ theta_0 = Num t_0)
    /\ (phi_0 = Symbol "phi_0" \/ phi_0 = Num p_0).
Proof.
  intros [| c0 c1 c2 c3 H0 H1 H2 H3].
  - do 4 eexists. split; [reflexivity |]. split; [left | right]; reflexivity.
  - destruct H0 as [-> | ->], H1 as [-> | ->], H2 as [-> | ->], H3 as [-> | ->];
      do 4 eexists; (split; [reflexivity |]);
      split; solve [left; reflexivity | right; reflexivity].
Qed.

(** Claim C2: for a phase function with [ncoefs > 0] and every geometry
    mode, [legexpansion] returns the unevaluated [Sum] over [n = 0 .. ncoefs-1]
    of [legcoefs(n) * P_n(scat_angle(pi - theta_0, theta_s, phi_0, phi_s, a))];
    substituting numbers for its symbols sums those [ncoefs] terms. *)
Theorem legexpansion_unevaluated_sum (V : Vol.Volume) (c : nat -> R)
    (t_0 t_ex p_0 p_ex : R) (geometry : string) :
  (0 < Vol.ncoefs V)%nat -> Vol.legcoefs V = Some c -> geometry_mode geometry ->
  exists theta_0 theta_ex phi_0 phi_ex,
    Vol.resolve_geometry geometry t_0 t_ex p_0 p_ex = Ok (theta_0, theta_ex, phi_0, phi_ex)
    /\ (theta_0 = Symbol "theta_0" \/ theta_0 = Num t_0)
    /\ (phi_0 = Symbol "phi_0" \/ phi_0 = Num p_0)
    /\ Vol.legexpansion V t_0 t_ex p_0 p_ex geometry
       = Ok (Sum (fun n => Mul (Num (c n))
                    (Legendre n (scat_angle (Sub Pi theta_0) (Symbol "theta_s") phi_0
                                            (Symbol "phi_s") (Vol.a V))))
                 0 (Vol.ncoefs V - 1))
    /\ forall env : string -> R,
         eval env (Sum (fun n => Mul (Num (c n))
                    (Legendre n (scat_angle (Sub Pi theta_0) (Symbol "theta_s") phi_0
                                            (Symbol "phi_s") (Vol.a V))))
                 0 (Vol.ncoefs V - 1))
         = rsum (fun n => c n * legendreP n
                   (eval env (scat_angle (Sub Pi theta_0) (Symbol "theta_s") phi_0
                                         (Symbol "phi_s") (Vol.a V))))
                (Vol.ncoefs V).
Proof.
  intros Hn Hc Hg.
  destruct (resolve_geometry_mode geometry t_0 t_ex p_0 p_ex Hg)
    as (theta_0 & theta_ex & phi_0 & phi_ex & Hres & Ht & Hp).
  exists theta_0, theta_ex, phi_0, phi_ex.
  split; [exact Hres |]. split; [exact Ht |]. split; [exact Hp |].
  split.
  - unfold Vol.legexpansion.
    replace (Nat.ltb 0 (Vol.ncoefs V)) with true by (symmetry; apply Nat.ltb_lt; exact Hn).
    rewrite Hres. cbn [bind]. unfold Vol.get_legcoefs. rewrite Hc. reflexivity.
  - intros env. rewrite eval_Sum.
    replace (S (Vol.ncoefs V - 1) - 0)%nat with (Vol.ncoefs V) by lia.
    apply rsum_ext. intros i. reflexivity.
Qed.

Lemma legexpansion_unevaluated_sum_witness :
  (0 < Vol.ncoefs (example_rayleigh))%nat
  /\ Vol.legcoefs (example_rayleigh) = Some Vol.Rayleigh_legcoefs
  /\ geometry_mode "fvfv"
  /\ Vol.legexpansion (example_rayleigh) (3/10) 1 (1/10) 2 "fvfv"
     = Ok (Sum (fun n => Mul (Num (Vol.Rayleigh_legcoefs n))
                  (Legendre n (scat_angle (Sub Pi (Num (3/10))) (Symbol "theta_s") (Num (1/10))
                                          (Symbol "phi_s") Vol.default_a)))
               0 2).
Proof.
  assert (Hg : geometry_mode "fvfv").
  { apply gm_mask; unfold mode_char; auto. }
  split; [simpl; lia |]. split; [reflexivity |]. split; [exact Hg |].
  destruct (legexpansion_unevaluated_sum (example_rayleigh)
              Vol.Rayleigh_legcoefs (3/10) 1 (1/10) 2 "fvfv")
    as (theta_0 & theta_ex & phi_0 & phi_ex & Hres & _ & _ & Hl & _);
    [simpl; lia | reflexivity | exact Hg |].
  rewrite Hl. simpl in Hres. inversion Hres. reflexivity.
Defined.

(** The monostatic branch of [resolve_geometry]: [theta_0] and [theta_ex]
    are one symbol, [phi_0 = p_0], [phi_ex = p_0 + pi]. *)
Lemma resolve_geometry_mono (t_0 t_ex p_0 p_ex : R) :
  Vol.resolve_geometry "mono" t_0 t_ex p_0 p_ex
  = Ok (Symbol "theta_0", Symbol "theta_0", Num p_0, Add (Num p_0) Pi).
Proof. reflexivity. Qed.

Lemma legexpansion_mono (V : Vol.Volume) (t_0 t_ex p_0 p_ex : R) :
  Vol.legexpansion V t_0 t_ex p_0 p_ex "mono"
  = if Nat.ltb 0 (Vol.ncoefs V) then
      c <- Vol.get_legcoefs V ;;
      Ok (Sum (fun n => Mul (Num (c n))
                 (Legendre n (scat_angle (Sub Pi (Symbol "theta_0")) (Symbol "theta_s")
                                         (Num p_0) (Symbol "phi_s") (Vol.a V))))
              0 (Vol.ncoefs V - 1))
    else Raise (AssertionError "").
Proof.
  unfold Vol.legexpansion. rewrite resolve_geometry_mono. reflexivity.
Qed.

(** Claim C4: in monostatic mode, a phase function's expansion is the same,
    and raises nothing, for any two exit-angle inputs: the exit zenith is
    the incidence zenith and the exit azimuth is [p_0 + pi]. *)
Theorem legexpansion_mono_ignores_exit_angles (V : Vol.Volume) (c : nat -> R)
    (t_0 p_0 t_ex1 p_ex1 t_ex2 p_ex2 : R) :
  (0 < Vol.ncoefs V)%nat -> Vol.legcoefs V = Some c ->
  Vol.resolve_geometry "mono" t_0 t_ex1 p_0 p_ex1
    = Ok (Symbol "theta_0", Symbol "theta_0", Num p_0, Add (Num p_0) Pi)
  /\ exists e : expr,
       Vol.legexpansion V t_0 t_ex1 p_0 p_ex1 "mono" = Ok e
       /\ Vol.legexpansion V t_0 t_ex2 p_0 p_ex2 "mono" = Ok e.
Proof.
  intros Hn Hc.
  split; [apply resolve_geometry_mono |].
  rewrite !legexpansion_mono.
  replace (Nat.ltb 0 (Vol.ncoefs V)) with true by (symmetry; apply Nat.ltb_lt; exact Hn).
  unfold Vol.get_legcoefs. rewrite Hc. cbn [bind].
  eexists. split; reflexivity.
Qed.

Lemma legexpansion_mono_ignores_exit_angles_witness :
  (0 < Vol.ncoefs (Vol.Rayleigh None None))%nat
  /\ Vol.legcoefs (Vol.Rayleigh None None) = Some Vol.Rayleigh_legcoefs
  /\ exists e : expr,
       Vol.legexpansion (Vol.Rayleigh None None) (3/10) 1 (1/10) 2 "mono" = Ok e
       /\ Vol.legexpansion (Vol.Rayleigh None None) (3/10) (-5) (1/10) 7 "mono" = Ok e.
Proof.
  split; [simpl; lia |]. split; [reflexivity |].
  apply (legexpansion_mono_ignores_exit_angles (Vol.Rayleigh None None) Vol.Rayleigh_legcoefs
           (3/10) (1/10) 1 2 (-5) 7); [simpl; lia | reflexivity].
Defined.

(** Claim C10: in monostatic mode the numerical [t_0] is not used either:
    the incidence zenith stays the free symbol [theta_0] (the exit zenith is
    the same symbol), [p_0] is substituted and the exit azimuth is
    [p_0 + pi]; of the four numerical angles the result depends on [p_0]
    only. *)
Theorem legexpansion_mono_depends_only_on_p0 (V : Vol.Volume)
    (t_0 t_ex p_0 p_ex t_0' t_ex' p_ex' : R) :
  Vol.resolve_geometry "mono" t_0 t_ex p_0 p_ex
    = Ok (Symbol "theta_0", Symbol "theta_0", Num p_0, Add (Num p_0) Pi)
  /\ Vol.legexpansion V t_0 t_ex p_0 p_ex "mono" = Vol.legexpansion V t_0' t_ex' p_0 p_ex' "mono"
  /\ forall e : expr,
       Vol.legexpansion V t_0 t_ex p_0 p_ex "mono" = Ok e ->
       exists c, Vol.legcoefs V = Some c
         /\ e = Sum (fun n => Mul (Num (c n))
                       (Legendre n (scat_angle (Sub Pi (Symbol "theta_0")) (Symbol "theta_s")
                                               (Num p_0) (Symbol "phi_s") (Vol.a V))))
                    0 (Vol.ncoefs V - 1).
Proof.
  split; [apply resolve_geometry_mono |].
  split; [rewrite !legexpansion_mono; reflexivity |].
  intros e He. rewrite legexpansion_mono in He.
  destruct (Nat.ltb 0 (Vol.ncoefs V)); [| discriminate].
  unfold Vol.get_legcoefs in He.
  destruct (Vol.legcoefs V) as [c |]; [| discriminate].
  cbn [bind] in He. inversion He. exists c. split; reflexivity.
Qed.

(** ** Linear combinations [LinCombV] *)

Section LinCombFacts.
Import Vol LinComb.

Lemma Reqb_true (x y : R) : Reqb x y = true <-> x = y.
Proof.
  unfold Reqb. destruct (Req_EM_T x y); split; congruence.
Qed.

Lemma a_eqb_true (x y : angle_params) : a_eqb x y = true <-> x = y.
Proof.
  destruct x as [[x0 x1] x2], y as [[y0 y1] y2]. simpl.
  rewrite !andb_true_iff, !Reqb_true.
  split; [intros [[-> ->] ->]; reflexivity | intros H; inversion H; auto].
Qed.

(** [np.where(...)] lists exactly the rows, counted from [i], whose [a]
    equals [aV]. *)
Lemma indices_with_a_spec (aV : angle_params) (Vs : list Vchoice) (i j : nat) :
  In j (indices_with_a aV Vs i)
  <-> (i <= j < i + length Vs)%nat /\ a (snd (nth (j - i) Vs dflt_choice)) = aV.
Proof.
  revert i. induction Vs as [| V Vs IH]; intros i; cbn [indices_with_a length].
  - split; [intros [] | lia].
  - assert (Hstep : (S i <= j)%nat -> nth (j - i) (V :: Vs) dflt_choice = nth (j - S i) Vs dflt_choice).
    { intros Hj. replace (j - i)%nat with (S (j - S i)) by lia. reflexivity. }
    destruct (a_eqb (a (snd V)) aV) eqn:E.
    + apply a_eqb_true in E. cbn [In]. rewrite IH. split.
      * intros [-> | [Hr Ha]].
        -- rewrite Nat.sub_diag. split; [lia | exact E].
        -- rewrite Hstep by lia. split; [lia | exact Ha].
      * intros [Hr Ha]. destruct (Nat.eq_dec i j) as [-> | Hne]; [left; reflexivity |].
        right. rewrite Hstep in Ha by lia. split; [lia | exact Ha].
    + rewrite IH. split.
      * intros [Hr Ha]. rewrite Hstep by lia. split; [lia | exact Ha].
      * intros [Hr Ha]. destruct (Nat.eq_dec i j) as [-> | Hne].
        -- rewrite Nat.sub_diag in Ha. simpl in Ha. subst aV.
           assert (a_eqb (a (snd V)) (a (snd V)) = true) by (apply a_eqb_true; reflexivity).
           congruence.
        -- rewrite Hstep in Ha by lia. split; [lia | exact Ha].
Qed.

Lemma In_equals_indices (Vchoices : list Vchoice) (aV : angle_params) (j : nat) :
  In j (indices_with_a aV Vchoices 0)
  <-> (j < length Vchoices)%nat /\ a_at Vchoices j = aV.
Proof.
  rewrite indices_with_a_spec, Nat.sub_0_r. unfold a_at. split; intros [H1 H2]; split; auto; lia.
Qed.

(** The classes are the index lists of the rows sharing the [a] of some row. *)
Lemma In_equal_a (Vchoices : list Vchoice) (cls : list nat) :
  In cls (equal_a Vchoices)
  <-> exists k, (k < length Vchoices)%nat /\ cls = indices_with_a (a_at Vchoices k) Vchoices 0.
Proof.
  unfold equal_a, equals. rewrite nodup_In, in_map_iff. split.
  - intros (V & <- & HV).
    destruct (In_nth Vchoices V dflt_choice HV) as (k & Hk & Hnth).
    exists k. split; [exact Hk |]. unfold a_at. rewrite Hnth. reflexivity.
  - intros (k & Hk & ->). exists (nth k Vchoices dflt_choice). split; [reflexivity |].
    apply nth_In. exact Hk.
Qed.

(** Two rows fall in a common class exactly when their [a] triples are equal. *)
Lemma equal_a_partition (Vchoices : list Vchoice) (i j : nat) :
  (i < length Vchoices)%nat -> (j < length Vchoices)%nat ->
  (exists cls, In cls (equal_a Vchoices) /\ In i cls /\ In j cls)
  <-> a_at Vchoices i = a_at Vchoices j.
Proof.
  intros Hi Hj. split.
  - intros (cls & Hcls & Hicls & Hjcls).
    apply In_equal_a in Hcls. destruct Hcls as (k & Hk & ->).
    apply In_equals_indices in Hicls, Hjcls.
    destruct Hicls as [_ ->], Hjcls as [_ ->]. reflexivity.
  - intros Ha. exists (indices_with_a (a_at Vchoices i) Vchoices 0).
    split; [apply In_equal_a; exists i; auto |].
    split; apply In_equals_indices; auto.
Qed.

Lemma equal_a_in_range (Vchoices : list Vchoice) (cls : list nat) (j : nat) :
  In cls (equal_a Vchoices) -> In j cls -> (j < length Vchoices)%nat.
Proof.
  intros Hcls Hj. apply In_equal_a in Hcls. destruct Hcls as (k & _ & ->).
  apply In_equals_indices in Hj. tauto.
Qed.

(** [np.take] selects the rows of the class, in index order. *)
Lemma np_take_ok (Vchoices : list Vchoice) (cls : list nat) :
  (forall j, In j cls -> (j < length Vchoices)%nat) ->
  np_take Vchoices cls = Ok (map (fun j => nth j Vchoices dflt_choice) cls).
Proof.
  induction cls as [| j cls IH]; intros Hr; [reflexivity |].
  unfold np_take in *. simpl.
  rewrite (nth_error_nth' Vchoices (n := j) dflt_choice) by (apply Hr; left; reflexivity).
  cbn [bind]. rewrite IH by (intros; apply Hr; right; assumption). reflexivity.
Qed.

Lemma mapM_ok {A B : Type} (f : A -> outcome B) (l : list A) :
  (forall x, In x l -> exists y, f x = Ok y) -> exists ys, mapM f l = Ok ys.
Proof.
  induction l as [| x l IH]; intros H; [exists []; reflexivity |].
  destruct (H x (or_introl eq_refl)) as [y Hy].
  destruct IH as [ys Hys]; [intros; apply H; right; assumption |].
  exists (y :: ys). simpl. rewrite Hy. cbn [bind]. rewrite Hys. reflexivity.
Qed.

Lemma mapM_Forall2 {A B : Type} (f : A -> outcome B) (l : list A) (ys : list B) :
  mapM f l = Ok ys -> Forall2 (fun x y => f x = Ok y) l ys.
Proof.
  revert ys. induction l as [| x l IH]; intros ys H; simpl in H.
  - inversion H. constructor.
  - destruct (f x) as [y |] eqn:Hf; [| discriminate]. cbn [bind] in H.
    destruct (mapM f l) as [ys' |] eqn:Hl; [| discriminate]. cbn [bind] in H.
    inversion H. constructor; [exact Hf | apply IH; reflexivity].
Qed.

(** What the member loop accumulates into [Vdummy]. *)
Lemma add_members_spec (Vs : list Vchoice) (Vd Vd' : Volume) (c0 : nat -> R) :
  legcoefs Vd = Some c0 -> add_members Vd Vs = Ok Vd' ->
  ncoefs Vd' = ncoefs Vd
  /\ (exists c, legcoefs Vd' = Some c
        /\ forall n, c n = c0 n + Rlist_sum (map (fun V => coef_at (snd V) n * fst V) Vs))
  /\ (forall env, eval env (func Vd')
        = eval env (func Vd) + Rlist_sum (map (fun V => eval env (func (snd V)) * fst V) Vs))
  /\ ((Vs = [] /\ a Vd' = a Vd) \/ (exists V, In V Vs /\ a Vd' = a (snd V)))
  /\ (forall V, In V Vs -> exists c, legcoefs (snd V) = Some c).
Proof.
  revert Vd c0. induction Vs as [| V Vs IH]; intros Vd c0 Hc0 H; simpl in H.
  - inversion H; subst. split; [reflexivity |]. split.
    + exists c0. split; [exact Hc0 | intros n; simpl; ring].
    + split; [intros env; simpl; ring |]. split; [left; auto | intros _ []].
  - unfold add_member, get_legcoefs in H. rewrite Hc0 in H. cbn [bind] in H.
    destruct (legcoefs (snd V)) as [c1 |] eqn:Hc1; [| discriminate]. cbn [bind] in H.
    apply IH with (c0 := fun n => c0 n + c1 n * fst V) in H; [| reflexivity].
    destruct H as (Hn & (c & Hc & Hcn) & Hf & Ha & Hall).
    split; [exact Hn |]. split.
    + exists c. split; [exact Hc |]. intros n. rewrite Hcn.
      change (Rlist_sum (map ?f (V :: Vs))) with (f V + Rlist_sum (map f Vs)).
      cbv beta. unfold coef_at at 2. rewrite Hc1. ring.
    + split; [intros env; rewrite Hf; simpl; ring |]. split.
      * right. destruct Ha as [[-> Ha] | (V' & HV' & Ha)].
        -- exists V. split; [left; reflexivity | exact Ha].
        -- exists V'. split; [right; exact HV' | exact Ha].
      * intros V' [<- | HV']; [exists c1; exact Hc1 | apply Hall; exact HV'].
Qed.

Lemma add_members_ok (Vs : list Vchoice) (Vd : Volume) (c0 : nat -> R) :
  legcoefs Vd = Some c0 ->
  (forall V, In V Vs -> exists c, legcoefs (snd V) = Some c) ->
  exists Vd', add_members Vd Vs = Ok Vd'.
Proof.
  revert Vd c0. induction Vs as [| V Vs IH]; intros Vd c0 Hc0 Hall; [exists Vd; reflexivity |].
  simpl. unfold add_member, get_legcoefs. rewrite Hc0. cbn [bind].
  destruct (Hall V (or_introl eq_refl)) as [c1 Hc1]. rewrite Hc1. cbn [bind].
  eapply IH; [reflexivity | intros; apply Hall; right; assumption].
Qed.

(** [_Vcombiner] gets past its assertion when every component has
    Legendre coefficients. *)
Lemma Vcombiner_ok (omega tau : option R) (Vchoices : list Vchoice) :
  Rabs (1 - weights_sum Vchoices) < 15 / 10 ^ 8 ->
  (forall V, In V Vchoices -> exists c, legcoefs (snd V) = Some c) ->
  exists Vc, _Vcombiner omega tau Vchoices = Ok Vc.
Proof.
  intros Hw Hall. unfold _Vcombiner, assert_almost_equal.
  destruct (Rle_dec (15 / 10 ^ 8) (Rabs (1 - weights_sum Vchoices))) as [Hle | _]; [lra |].
  cbn [bind].
  destruct (mapM_ok (class_dummy Vchoices) (equal_a Vchoices)) as [ds Hds].
  - intros cls Hcls. unfold class_dummy.
    rewrite np_take_ok by (intros j Hj; eapply equal_a_in_range; eassumption).
    cbn [bind]. eapply add_members_ok; [reflexivity |].
    intros V HV. apply in_map_iff in HV. destruct HV as (j & <- & Hj).
    apply Hall, nth_In. eapply equal_a_in_range; eassumption.
  - rewrite Hds. cbn [bind]. eexists. reflexivity.
Qed.

Lemma Vcombiner_assert (omega tau : option R) (Vchoices : list Vchoice) :
  15 / 10 ^ 8 <= Rabs (1 - weights_sum Vchoices) ->
  _Vcombiner omega tau Vchoices
  = Raise (AssertionError "The sum of the phase-function weighting-factors must equate to 1 !").
Proof.
  intros Hw. unfold _Vcombiner, assert_almost_equal.
  destruct (Rle_dec (15 / 10 ^ 8) (Rabs (1 - weights_sum Vchoices))) as [_ | Hn]; [| lra].
  reflexivity.
Qed.

(** Construction of a [LinCombV] raises exactly when the weights miss 1 by
    [1.5e-7] or more (components with Legendre coefficients). *)
Lemma LinCombV_raises_iff (Vchoices : list Vchoice) (omega tau : option R) :
  (forall V, In V Vchoices -> exists c, legcoefs (snd V) = Some c) ->
  ((exists e, LinCombV Vchoices omega tau = Raise e)
     <-> 15 / 10 ^ 8 <= Rabs (1 - weights_sum Vchoices))
  /\ (15 / 10 ^ 8 <= Rabs (1 - weights_sum Vchoices) ->
      LinCombV Vchoices omega tau
      = Raise (AssertionError "The sum of the phase-function weighting-factors must equate to 1 !")).
Proof.
  intros Hall.
  assert (Hr : 15 / 10 ^ 8 <= Rabs (1 - weights_sum Vchoices) ->
      LinCombV Vchoices omega tau
      = Raise (AssertionError "The sum of the phase-function weighting-factors must equate to 1 !")).
  { intros Hw. unfold LinCombV. rewrite Vcombiner_assert by exact Hw. reflexivity. }
  split; [| exact Hr]. split.
  - intros [e He].
    destruct (Rle_dec (15 / 10 ^ 8) (Rabs (1 - weights_sum Vchoices))) as [Hle | Hlt];
      [exact Hle | exfalso].
    destruct (Vcombiner_ok omega tau Vchoices) as [Vc HVc]; [lra | exact Hall |].
    unfold LinCombV in He. rewrite HVc in He. discriminate.
  - intros Hw. eexists. apply Hr. exact Hw.
Qed.

(** Numerical substitution of [np.sum] of expressions adds their values. *)
Lemma eval_np_sum (env : string -> R) (es : list expr) :
  eval env (np_sum es) = Rlist_sum (map (eval env) es).
Proof.
  destruct es as [| e es]; [reflexivity |].
  unfold np_sum. simpl.
  assert (H : forall acc, eval env (fold_left Add es acc)
                          = eval env acc + Rlist_sum (map (eval env) es)).
  { induction es as [| e' es IH]; intros acc; simpl; [ring |].
    rewrite IH. simpl. ring. }
  rewrite H. ring.
Qed.

Lemma Forall2_impl_In {A B : Type} (P Q : A -> B -> Prop) (l : list A) (l' : list B) :
  (forall x y, In x l -> P x y -> Q x y) -> Forall2 P l l' -> Forall2 Q l l'.
Proof.
  intros H HF. induction HF as [| x y l l' Hxy HF IH]; constructor.
  - apply H; [left; reflexivity | exact Hxy].
  - apply IH. intros x' y' Hx'. apply H. right. exact Hx'.
Qed.

End LinCombFacts.

Ltac rabs_lra :=
  unfold LinComb.weights_sum; simpl;
  unfold Rabs; destruct Rcase_abs; lra.

(** Claim C5, as amended: construction of a linear combination of phase
    functions raises [AssertionError] exactly when the weights' sum is
    [1.5e-7] or more away from 1 ([assert_almost_equal], [decimal=7]); the
    weights are not renormalized.  With a Rayleigh and a Henyey-Greenstein
    [t = 0] component, weights [[0.5, 0.6]] fail and [[0.4, 0.6]] succeed. *)
Theorem LinCombV_weight_tolerance (Vchoices : list LinComb.Vchoice) (omega tau : option R) :
  (forall V, In V Vchoices -> exists c, Vol.legcoefs (snd V) = Some c) ->
  ((exists e, LinComb.LinCombV Vchoices omega tau = Raise e)
     <-> 15 / 10 ^ 8 <= Rabs (1 - LinComb.weights_sum Vchoices))
  /\ (15 / 10 ^ 8 <= Rabs (1 - LinComb.weights_sum Vchoices) ->
      LinComb.LinCombV Vchoices omega tau
      = Raise (AssertionError "The sum of the phase-function weighting-factors must equate to 1 !"))
  /\ (exists e, LinComb.LinCombV [(1/2, example_rayleigh); (6/10, example_hg0)] None None = Raise e)
  /\ (exists v, LinComb.LinCombV [(4/10, example_rayleigh); (6/10, example_hg0)] None None = Ok v).
Proof.
  intros Hall.
  assert (Hex : forall w1 w2 : R,
             forall V, In V [(w1, example_rayleigh); (w2, example_hg0)] ->
             exists c, Vol.legcoefs (snd V) = Some c).
  { intros w1 w2 V [<- | [<- | []]]; eexists; reflexivity. }
  split; [apply LinCombV_raises_iff; exact Hall |].
  split; [apply LinCombV_raises_iff; exact Hall |].
  split.
  - apply (LinCombV_raises_iff _ None None (Hex _ _)). rabs_lra.
  - destruct (LinComb.LinCombV [(4/10, example_rayleigh); (6/10, example_hg0)] None None)
      as [v | e] eqn:E; [exists v; reflexivity | exfalso].
    assert (Hr : 15 / 10 ^ 8 <= Rabs (1 - LinComb.weights_sum
                   [(4/10, example_rayleigh); (6/10, example_hg0)])).
    { apply (LinCombV_raises_iff _ None None (Hex _ _)). exists e. exact E. }
    revert Hr. rabs_lra.
Qed.

(** Claim C5 fails as stated: weights summing to [1 + 2e-8], more than
    [1e-8] away from 1, are accepted. *)
Lemma LinCombV_weight_tolerance_counterexample :
  1 / 10 ^ 8 < Rabs (LinComb.weights_sum [(4/10, example_rayleigh); (6/10 + 2/10^8, example_hg0)] - 1)
  /\ exists v, LinComb.LinCombV [(4/10, example_rayleigh); (6/10 + 2/10^8, example_hg0)] None None
               = Ok v.
Proof.
  split; [rabs_lra |].
  destruct (LinComb.LinCombV [(4/10, example_rayleigh); (6/10 + 2/10^8, example_hg0)] None None)
    as [v | e] eqn:E; [exists v; reflexivity | exfalso].
  assert (Hr : 15 / 10 ^ 8 <= Rabs (1 - LinComb.weights_sum
                 [(4/10, example_rayleigh); (6/10 + 2/10^8, example_hg0)])).
  { apply (LinCombV_raises_iff _ None None).
    - intros V [<- | [<- | []]]; eexists; reflexivity.
    - exists e. exact E. }
  revert Hr. rabs_lra.
Qed.



Lemma LinCombV_weight_tolerance_witness :
  (forall V, In V [(4/10, example_rayleigh); (6/10, example_hg0)] ->
     exists c, Vol.legcoefs (snd V) = Some c)
  /\ ((exists e, LinComb.LinCombV [(4/10, example_rayleigh); (6/10, example_hg0)] None None = Raise e)
       <-> 15 / 10 ^ 8 <= Rabs (1 - LinComb.weights_sum [(4/10, example_rayleigh); (6/10, example_hg0)])).
Proof.
  assert (Hall : forall V, In V [(4/10, example_rayleigh); (6/10, example_hg0)] ->
                   exists c, Vol.legcoefs (snd V) = Some c).
  { intros V [<- | [<- | []]]; eexists; reflexivity. }
  split; [exact Hall |].
  apply (LinCombV_weight_tolerance [(4/10, example_rayleigh); (6/10, example_hg0)] None None Hall).
Defined.

(** Claim C6: a successful [_Vcombiner] partitions the components by exact
    equality of their [a] triples; each class's intermediate phase function
    has as [legcoefs] and [expression] the weighted sums of its members' and
    as [ncoefs] the largest of theirs; and the combined object's
    [legexpansion] is the [np.sum] of the per-class expansions, whose value
    is the sum of their values. *)
Theorem Vcombiner_sum_of_class_expansions (omega tau : option R)
    (Vchoices : list LinComb.Vchoice) (Vc : Vol.Volume) :
  LinComb._Vcombiner omega tau Vchoices = Ok Vc ->
  (forall i j : nat, (i < length Vchoices)%nat -> (j < length Vchoices)%nat ->
     (exists cls, In cls (LinComb.equal_a Vchoices) /\ In i cls /\ In j cls)
     <-> LinComb.a_at Vchoices i = LinComb.a_at Vchoices j)
  /\ Vol.ncoefs Vc = LinComb.max_ncoefs Vchoices
  /\ exists dummies : list Vol.Volume,
       Forall2 (fun cls Vd =>
         let Vequal := map (fun j => nth j Vchoices LinComb.dflt_choice) cls in
         LinComb.class_dummy Vchoices cls = Ok Vd
         /\ Vol.ncoefs Vd = LinComb.max_ncoefs Vequal
         /\ (exists c, Vol.legcoefs Vd = Some c
               /\ forall n, c n = LinComb.Rlist_sum
                                    (map (fun V => LinComb.coef_at (snd V) n * fst V) Vequal))
         /\ (forall env, eval env (Vol.func Vd)
               = LinComb.Rlist_sum (map (fun V => eval env (Vol.func (snd V)) * fst V) Vequal))
         /\ (forall V, In V Vequal -> Vol.a Vd = Vol.a (snd V)))
         (LinComb.equal_a Vchoices) dummies
       /\ forall (t_0 t_ex p_0 p_ex : R) (geometry : string) (es : list expr),
            mapM (fun Vd => Vol.legexpansion Vd t_0 t_ex p_0 p_ex geometry) dummies = Ok es ->
            Vol.call_legexpansion Vc t_0 t_ex p_0 p_ex geometry = Ok (LinComb.np_sum es)
            /\ forall env, eval env (LinComb.np_sum es) = LinComb.Rlist_sum (map (eval env) es).
Proof.
  intros H. unfold LinComb._Vcombiner, LinComb.assert_almost_equal in H.
  destruct (Rle_dec _ _) as [_ | _]; [discriminate |]. cbn [bind] in H.
  destruct (mapM (LinComb.class_dummy Vchoices) (LinComb.equal_a Vchoices)) as [ds |] eqn:Hm;
    [| discriminate].
  cbn [bind] in H. inversion H; subst Vc; clear H.
  split; [intros i j Hi Hj; apply equal_a_partition; assumption |].
  split; [reflexivity |].
  exists ds. split.
  - apply mapM_Forall2 in Hm. revert Hm. apply Forall2_impl_In.
    intros cls Vd Hcls HVd. cbv zeta.
    split; [exact HVd |].
    unfold LinComb.class_dummy in HVd.
    rewrite np_take_ok in HVd by (intros j Hj; eapply equal_a_in_range; eassumption).
    cbn [bind] in HVd.
    apply add_members_spec with (c0 := fun _ => 0) in HVd; [| reflexivity].
    destruct HVd as (Hn & (c & Hc & Hcn) & Hf & Ha & _).
    split; [exact Hn |]. split.
    + exists c. split; [exact Hc |]. intros n. rewrite Hcn. ring.
    + split; [intros env; rewrite Hf; simpl; ring |].
      apply In_equal_a in Hcls. destruct Hcls as (k & Hk & ->).
      assert (Hmem : forall V, In V (map (fun j => nth j Vchoices LinComb.dflt_choice)
                                        (LinComb.indices_with_a (LinComb.a_at Vchoices k) Vchoices 0))
                               -> Vol.a (snd V) = LinComb.a_at Vchoices k).
      { intros V HV. apply in_map_iff in HV. destruct HV as (j & <- & Hj).
        apply In_equals_indices in Hj. destruct Hj as [_ Hj]. exact Hj. }
      intros V HV. rewrite (Hmem V HV).
      destruct Ha as [[Hnil _] | (V' & HV' & Ha)].
      * rewrite Hnil in HV. destruct HV.
      * rewrite Ha. apply Hmem. exact HV'.
  - intros t_0 t_ex p_0 p_ex geometry es Hes. split.
    + unfold Vol.call_legexpansion. cbn [Vol.legexpansion_attr].
      unfold LinComb.combined_legexpansion. rewrite Hes. reflexivity.
    + intros env. apply eval_np_sum.
Qed.

Lemma Vcombiner_sum_of_class_expansions_witness :
  exists Vc : Vol.Volume,
    LinComb._Vcombiner None None [(4/10, example_rayleigh); (6/10, example_hg0)] = Ok Vc
    /\ Vol.ncoefs Vc = LinComb.max_ncoefs [(4/10, example_rayleigh); (6/10, example_hg0)].
Proof.
  destruct (Vcombiner_ok None None [(4/10, example_rayleigh); (6/10, example_hg0)]) as [Vc HVc].
  - rabs_lra.
  - intros V [<- | [<- | []]]; eexists; reflexivity.
  - exists Vc. split; [exact HVc |].
    apply (Vcombiner_sum_of_class_expansions None None
             [(4/10, example_rayleigh); (6/10, example_hg0)] Vc HVc).
Defined.

(** * Further properties of the code *)

(** ** [Scatter.thetaBRDF] and [Scatter.thetap] *)

(** [thetaBRDF] depends on the two azimuths only through their difference:
    it is [cos(thetai)*cos(thetas) + sin(thetai)*sin(thetas)*cos(phii - phis)]. *)
Theorem thetaBRDF_azimuth_difference (env : string -> R) (thetai thetas phii phis : expr) :
  eval env (Scat.thetaBRDF thetai thetas phii phis)
  = cos (eval env thetai) * cos (eval env thetas)
    + sin (eval env thetai) * sin (eval env thetas) * cos (eval env phii - eval env phis).
Proof.
  unfold Scat.thetaBRDF. cbn [eval]. rewrite cos_minus. ring.
Qed.

(** [thetap] is [thetaBRDF] with the incidence zenith reflected to
    [pi - thetai]. *)
Theorem thetap_is_thetaBRDF_reflected (env : string -> R) (thetai thetas phii phis : expr) :
  eval env (Scat.thetap thetai thetas phii phis)
  = eval env (Scat.thetaBRDF (Sub Pi thetai) thetas phii phis).
Proof.
  unfold Scat.thetap, Scat.thetaBRDF. cbn [eval].
  rewrite Rtrigo_facts.cos_pi_minus, sin_PI_x. ring.
Qed.

(** On zenith angles [acos(mu_i)], [acos(mu_s)] with [mu_i, mu_s] in
    [[-1,1]], the symbolic [thetaBRDF] and [thetap] of [scatter.py] give
    the numerical [RT1.cos_theta] and [RT1.cos_theta_prime]. *)
Theorem thetaBRDF_agrees_with_cos_theta (env : string -> R) (mu_i mu_s phi_i phi_s : R) :
  -1 <= mu_i <= 1 -> -1 <= mu_s <= 1 ->
  eval env (Scat.thetaBRDF (Num (acos mu_i)) (Num (acos mu_s)) (Num phi_i) (Num phi_s))
    = cos_theta mu_i mu_s phi_i phi_s
  /\ eval env (Scat.thetap (Num (acos mu_i)) (Num (acos mu_s)) (Num phi_i) (Num phi_s))
    = cos_theta_prime mu_i mu_s phi_i phi_s.
Proof.
  intros Hi Hs. unfold Scat.thetaBRDF, Scat.thetap, cos_theta, cos_theta_prime.
  cbn [eval]. rewrite !cos_acos by assumption. rewrite cos_minus.
  split; ring.
Qed.

Lemma thetaBRDF_agrees_with_cos_theta_witness :
  (-1 <= 1/2 <= 1) /\ (-1 <= -1/3 <= 1)
  /\ eval (fun _ => 0) (Scat.thetaBRDF (Num (acos (1/2))) (Num (acos (-1/3))) (Num 1) (Num 2))
     = cos_theta (1/2) (-1/3) 1 2
  /\ eval (fun _ => 0) (Scat.thetap (Num (acos (1/2))) (Num (acos (-1/3))) (Num 1) (Num 2))
     = cos_theta_prime (1/2) (-1/3) 1 2.
Proof.
  split; [lra |]. split; [lra |].
  apply (thetaBRDF_agrees_with_cos_theta (fun _ => 0) (1/2) (-1/3) 1 2); lra.
Defined.

(** ** Values of the phase functions [Volume.p] *)

(** With the default parameters [a = [-1, 1, 1]] the scattering cosine
    lies in [[-1, 1]]. *)
Lemma scat_x_default_bound (env : string -> R) :
  -1 <= eval env (Vol.scat_x Vol.default_a) <= 1.
Proof.
  unfold Vol.scat_x, Vol.default_a, scat_angle. cbn [eval].
  set (A := cos (env "theta_0"%string)). set (B := sin (env "theta_0"%string)).
  set (C := cos (env "theta_ex"%string)). set (D := sin (env "theta_ex"%string)).
  set (k := cos (env "phi_0"%string) * cos (env "phi_ex"%string)
            + sin (env "phi_0"%string) * sin (env "phi_ex"%string)).
  assert (HAB : A ^ 2 + B ^ 2 = 1).
  { unfold A, B. pose proof (sin2_cos2 (env "theta_0"%string)) as H. unfold Rsqr in H. nra. }
  assert (HCD : C ^ 2 + D ^ 2 = 1).
  { unfold C, D. pose proof (sin2_cos2 (env "theta_ex"%string)) as H. unfold Rsqr in H. nra. }
  assert (Hk : k ^ 2 <= 1).
  { unfold k. rewrite <- cos_minus. pose proof (COS_bound (env "phi_0"%string - env "phi_ex"%string)).
    nra. }
  assert (Hx : (-1 * A * C + (1 * B * D * cos (env "phi_0"%string)) * cos (env "phi_ex"%string)
                + (1 * B * D * sin (env "phi_0"%string)) * sin (env "phi_ex"%string)) ^ 2 <= 1).
  { replace (-1 * A * C + (1 * B * D * cos (env "phi_0"%string)) * cos (env "phi_ex"%string)
                + (1 * B * D * sin (env "phi_0"%string)) * sin (env "phi_ex"%string))
      with (- (A * C) + B * D * k) by (unfold k; ring).
    assert (HD : D ^ 2 * k ^ 2 <= D ^ 2) by (pose proof (pow2_ge_0 D); nra).
    assert (Hcs : (- (A * C) + B * D * k) ^ 2 + (A * D * k + B * C) ^ 2
                  = (A ^ 2 + B ^ 2) * (C ^ 2 + D ^ 2 * k ^ 2)) by ring.
    pose proof (pow2_ge_0 (A * D * k + B * C)). pose proof (pow2_ge_0 A). pose proof (pow2_ge_0 B).
    nra. }
  split; nra.
Qed.

(** The Rayleigh phase function [3/(16 pi) (1 + x^2)] takes its values in
    [[3/(16 pi), 3/(8 pi)]] at every pair of directions. *)
Theorem Rayleigh_p_bounds (omega tau : option R) (t_0 t_ex p_0 p_ex : R) :
  3 / (16 * PI) <= Vol.p (Vol.Rayleigh omega tau) t_0 t_ex p_0 p_ex <= 3 / (8 * PI).
Proof.
  unfold Vol.p, Vol.Rayleigh. cbn [Vol.func eval].
  pose proof (scat_x_default_bound (Vol.angle_env t_0 t_ex p_0 p_ex)) as Hx.
  set (x := eval (Vol.angle_env t_0 t_ex p_0 p_ex) (Vol.scat_x Vol.default_a)) in *.
  pose proof PI_RGT_0 as Hpi.
  assert (H0 : 0 <= x ^ 2 <= 1) by (split; nra).
  replace (3 / (16 * PI)) with (3 / (16 * PI) * 1) at 1 by ring.
  replace (3 / (8 * PI)) with (3 / (16 * PI) * 2) by (field; lra).
  assert (Hc : 0 < 3 / (16 * PI)) by (apply Rdiv_lt_0_compat; lra).
  split; apply Rmult_le_compat_l; lra.
Qed.

(** For an asymmetry parameter [-1 < t < 1], wherever the scattering cosine
    lies in [[-1, 1]], the base [1 + t^2 - 2 t x] of the [** 1.5] is
    positive and the Henyey-Greenstein and HG-Rayleigh phase functions are
    positive. *)
Theorem HG_phase_functions_positive (t : R) (nc : nat) (a : angle_params)
    (omega tau : option R) (t_0 t_ex p_0 p_ex : R) :
  -1 < t < 1 ->
  -1 <= eval (Vol.angle_env t_0 t_ex p_0 p_ex) (Vol.scat_x a) <= 1 ->
  0 < 1 + t ^ 2 - 2 * t * eval (Vol.angle_env t_0 t_ex p_0 p_ex) (Vol.scat_x a)
  /\ 0 < Vol.p (Vol.HenyeyGreenstein_volume t nc a omega tau) t_0 t_ex p_0 p_ex
  /\ 0 < Vol.p (Vol.HGRayleigh_volume t nc a omega tau) t_0 t_ex p_0 p_ex.
Proof.
  intros Ht Hx.
  unfold Vol.p, Vol.HenyeyGreenstein_volume, Vol.HGRayleigh_volume. cbn [Vol.func eval].
  set (x := eval (Vol.angle_env t_0 t_ex p_0 p_ex) (Vol.scat_x a)) in *.
  pose proof PI_RGT_0 as Hpi.
  assert (Hb : 0 < 1 + t ^ 2 - 2 * t * x).
  { assert (Hle : 2 * t * x <= 2 * Rabs t).
    { unfold Rabs. destruct (Rcase_abs t); nra. }
    assert (Hlt : 0 < (1 - Rabs t) ^ 2).
    { apply pow_lt. unfold Rabs. destruct (Rcase_abs t); lra. }
    assert (Habs : Rabs t ^ 2 = t ^ 2) by (unfold Rabs; destruct (Rcase_abs t); ring).
    nra. }
  assert (Hpow : 0 < Rpower (1 + t ^ 2 - 2 * t * x) (3 / 2)) by (unfold Rpower; apply exp_pos).
  assert (Ht2 : 0 < 1 - t ^ 2) by nra.
  split; [exact Hb |]. split.
  - apply Rdiv_lt_0_compat; [exact Ht2 |].
    apply Rmult_lt_0_compat; [lra | exact Hpow].
  - apply Rdiv_lt_0_compat; [| exact Hpow].
    assert (H2 : 0 < 2 + t ^ 2) by nra.
    assert (H1x : 0 < 1 + x ^ 2) by nra.
    assert (Hc : 0 < 3 / (8 * PI) * 1 / (2 + t ^ 2)).
    { apply Rdiv_lt_0_compat; [| exact H2]. apply Rmult_lt_0_compat; [| lra].
      apply Rdiv_lt_0_compat; lra. }
    apply Rmult_lt_0_compat; [apply Rmult_lt_0_compat |]; assumption.
Qed.

Lemma HG_phase_functions_positive_witness :
  (-1 < 1/2 < 1)
  /\ (-1 <= eval (Vol.angle_env 1 2 0 3) (Vol.scat_x Vol.default_a) <= 1)
  /\ 0 < Vol.p (Vol.HenyeyGreenstein_volume (1/2) 5 Vol.default_a None None) 1 2 0 3
  /\ 0 < Vol.p (Vol.HGRayleigh_volume (1/2) 5 Vol.default_a None None) 1 2 0 3.
Proof.
  split; [lra |]. split; [apply scat_x_default_bound |].
  destruct (HG_phase_functions_positive (1/2) 5 Vol.default_a None None 1 2 0 3)
    as (_ & H1 & H2); [lra | apply scat_x_default_bound |].
  split; assumption.
Defined.

(** At [t = 0] the Henyey-Greenstein phase function is the isotropic
    constant [1/(4 pi)], and the HG-Rayleigh phase function with the
    default [a] is the Rayleigh phase function. *)
Theorem HG_phase_functions_at_t0 (nc nc' : nat) (a : angle_params)
    (omega tau omega' tau' omega'' tau'' : option R) (t_0 t_ex p_0 p_ex : R) :
  Vol.p (Vol.HenyeyGreenstein_volume 0 nc a omega tau) t_0 t_ex p_0 p_ex = 1 / (4 * PI)
  /\ Vol.p (Vol.HGRayleigh_volume 0 nc' Vol.default_a omega' tau') t_0 t_ex p_0 p_ex
     = Vol.p (Vol.Rayleigh omega'' tau'') t_0 t_ex p_0 p_ex.
Proof.
  assert (Hone : forall x, 1 + 0 ^ 2 - 2 * 0 * x = 1) by (intros; ring).
  assert (Hrp : Rpower 1 (3 / 2) = 1) by (unfold Rpower; rewrite ln_1, Rmult_0_r; apply exp_0).
  pose proof PI_RGT_0 as Hpi.
  unfold Vol.p, Vol.HenyeyGreenstein_volume, Vol.HGRayleigh_volume, Vol.Rayleigh.
  cbn [Vol.func eval]. rewrite !Hone, Hrp.
  split; field; lra.
Qed.

(** Every phase function's coefficient of [P_0] is [1/(4 pi)]: Rayleigh,
    and Henyey-Greenstein and HG-Rayleigh for every asymmetry parameter. *)
Theorem legcoefs_zero_is_one_over_4pi (t : R) :
  Vol.Rayleigh_legcoefs 0 = 1 / (4 * PI)
  /\ Vol.HenyeyGreenstein_legcoefs t 0 = 1 / (4 * PI)
  /\ Vol.HGRayleigh_legcoefs t 0 = 1 / (4 * PI).
Proof.
  pose proof PI_RGT_0 as Hpi.
  assert (H2 : 2 + t ^ 2 <> 0) by (pose proof (pow2_ge_0 t); lra).
  unfold Vol.Rayleigh_legcoefs, Vol.HenyeyGreenstein_legcoefs, Vol.HGRayleigh_legcoefs,
    Vol.kronecker.
  cbn [Nat.eqb Nat.ltb Nat.leb INR]. rewrite !Nat.add_0_l.
  split; [| split]; field; lra.
Qed.

(** ** The geometry string of [Volume.legexpansion] *)

Ltac geometry_cases :=
  repeat (cbn [bind] in *;
          match goal with
          | |- context [match String.get ?i ?g with _ => _ end] =>
              destruct (String.get i g)
          | |- context [ascii_dec ?c ?d] => destruct (ascii_dec c d)
          | |- context [string_dec ?g ?h] => destruct (string_dec g h)
          end).

(** [legexpansion] never uses the exit angles [t_ex] and [p_ex], in any
    geometry: with 'f' in the exit slots they are substituted into
    [theta_ex] and [phi_ex], which the returned sum does not contain. *)
Theorem legexpansion_never_uses_exit_angles (V : Vol.Volume) (geometry : string)
    (t_0 p_0 t_ex p_ex t_ex' p_ex' : R) :
  Vol.legexpansion V t_0 t_ex p_0 p_ex geometry = Vol.legexpansion V t_0 t_ex' p_0 p_ex' geometry.
Proof.
  unfold Vol.legexpansion, Vol.resolve_geometry, Vol.geometry_slot.
  destruct (Nat.ltb 0 (Vol.ncoefs V)); [| reflexivity].
  geometry_cases; reflexivity.
Qed.

(** A geometry character the code accepts. *)
Lemma geometry_slot_ok (geometry : string) (i : nat) (var fixed : expr) (msg : string) :
  (exists e, Vol.geometry_slot geometry i var fixed msg = Ok e)
  <-> exists c, String.get i geometry = Some c /\ mode_char c.
Proof.
  unfold Vol.geometry_slot, mode_char. split.
  - intros [e He]. destruct (String.get i geometry) as [c |]; [| discriminate].
    exists c. split; [reflexivity |].
    destruct (ascii_dec c "v"); [right; assumption |].
    destruct (ascii_dec c "f"); [left; assumption | discriminate].
  - intros (c & -> & [-> | ->]); eexists; reflexivity.
Qed.

Lemma resolve_geometry_ok (geometry : string) (t_0 t_ex p_0 p_ex : R) :
  (exists r, Vol.resolve_geometry geometry t_0 t_ex p_0 p_ex = Ok r)
  <-> geometry = "mono"%string
      \/ forall i, (i < 4)%nat -> exists c, String.get i geometry = Some c /\ mode_char c.
Proof.
  unfold Vol.resolve_geometry.
  destruct (string_dec geometry "mono") as [Hm | Hm].
  { split; [left; exact Hm | intros _; eexists; reflexivity]. }
  split.
  - intros [r Hr]. right.
    destruct (Vol.geometry_slot geometry 0 _ _ _) as [e0 |] eqn:H0; [| discriminate].
    cbn [bind] in Hr.
    destruct (Vol.geometry_slot geometry 1 _ _ _) as [e1 |] eqn:H1; [| discriminate].
    cbn [bind] in Hr.
    destruct (Vol.geometry_slot geometry 2 _ _ _) as [e2 |] eqn:H2; [| discriminate].
    cbn [bind] in Hr.
    destruct (Vol.geometry_slot geometry 3 _ _ _) as [e3 |] eqn:H3; [| discriminate].
    intros i Hi.
    destruct i as [| [| [| [| i]]]]; [| | | | lia];
      eapply geometry_slot_ok; eexists; eassumption.
  - intros [Hmono | Hall]; [contradiction |].
    destruct (proj2 (geometry_slot_ok geometry 0 (Symbol "theta_0") (Num t_0)
                       "wrong choice of theta_i geometry") (Hall 0%nat ltac:(lia))) as [e0 H0].
    destruct (proj2 (geometry_slot_ok geometry 1 (Symbol "theta_ex") (Num t_ex)
                       "wrong choice of theta_ex geometry") (Hall 1%nat ltac:(lia))) as [e1 H1].
    destruct (proj2 (geometry_slot_ok geometry 2 (Symbol "phi_0") (Num p_0)
                       "wrong choice of phi_i geometry") (Hall 2%nat ltac:(lia))) as [e2 H2].
    destruct (proj2 (geometry_slot_ok geometry 3 (Symbol "phi_ex") (Num p_ex)
                       "wrong choice of phi_ex geometry") (Hall 3%nat ltac:(lia))) as [e3 H3].
    rewrite H0, H1, H2, H3. eexists. reflexivity.
Qed.

(** [legexpansion] returns an expansion exactly when [ncoefs > 0], the
    phase function has [legcoefs], and the geometry is the exact string
    "mono" or a string whose first four characters are each 'f' or 'v'
    (further characters are ignored); otherwise it raises. *)
Theorem legexpansion_ok_iff (V : Vol.Volume) (t_0 t_ex p_0 p_ex : R) (geometry : string) :
  (exists e, Vol.legexpansion V t_0 t_ex p_0 p_ex geometry = Ok e)
  <-> (0 < Vol.ncoefs V)%nat /\ Vol.legcoefs V <> None
      /\ (geometry = "mono"%string
          \/ forall i, (i < 4)%nat -> exists c, String.get i geometry = Some c /\ mode_char c).
Proof.
  rewrite <- (resolve_geometry_ok geometry t_0 t_ex p_0 p_ex).
  unfold Vol.legexpansion, Vol.get_legcoefs.
  destruct (Nat.ltb 0 (Vol.ncoefs V)) eqn:Hn.
  - apply Nat.ltb_lt in Hn.
    destruct (Vol.resolve_geometry geometry t_0 t_ex p_0 p_ex) as [[[[th0 thex] ph0] phex] |].
    + cbn [bind]. destruct (Vol.legcoefs V) as [c |].
      * split; [intros _ | intros _; eexists; reflexivity].
        split; [exact Hn |]. split; [discriminate |]. eexists. reflexivity.
      * split; [intros [x Hx]; discriminate | intros (_ & H & _); contradiction].
    + cbn [bind]. split; [intros [x Hx]; discriminate | intros (_ & _ & [r Hr]); discriminate].
  - apply Nat.ltb_ge in Hn.
    split; [intros [x Hx]; discriminate | intros (H & _); lia].
Qed.

(** ** [Scatter._eval_legpoly] *)




(** ** [RT1.volume], [RT1.interaction] and [RT1.calc] *)

(** [RT1.volume] raises on every instance: [self.omega] is not an
    attribute of [RT1]; [RT1.calc] raises on every instance too, at its
    first step [self.surface()], whose [self.tau] is not an attribute of
    [RT1] either, before the volume or interaction terms are computed. *)
Theorem volume_and_calc_always_raise (self : RT1m.RT1) :
  RT1m.volume self = Raise (AttributeError "RT1" "omega")
  /\ RT1m.calc self = Raise (AttributeError "RT1" "tau").
Proof. split; reflexivity. Qed.

(** The first iteration of the [_calc_Fint] loop reads the unbound [todo]. *)
Lemma Fint_outer_NameError (self : RT1m.RT1) (mu1 : R) (fn : list R) (n : nat) (S_ : R) :
  RT1m.Fint_outer self mu1 fn (seq 0 (S n)) S_ = Raise (NameError "todo").
Proof. reflexivity. Qed.

(** [RT1.interaction] never returns a value: without [Fn] it raises
    [AttributeError] on [None.fn]; with [nmax > 0], [_calc_Fint] raises
    [NameError] on [todo]; with [nmax = 0], [_calc_Fint] returns [None] and
    the arithmetic on it fails. *)
Theorem interaction_never_returns (self : RT1m.RT1) :
  (forall v : R, RT1m.interaction self <> Ok v)
  /\ (RT1m.Fn self = None -> RT1m.interaction self = Raise (AttributeError "NoneType" "fn"))
  /\ (RT1m.Fn self <> None -> (0 < RT1m._nmax self)%nat ->
      RT1m.interaction self = Raise (NameError "todo")).
Proof.
  unfold RT1m.interaction, RT1m._calc_Fint, RT1m.get_Fn.
  destruct (RT1m.Fn self) as [fnf |]; cbn [bind].
  - destruct (RT1m._nmax self) as [| n].
    + cbn [seq RT1m.Fint_outer bind]. unfold RT1m.rv_omega, RT1m.rv_tau.
      split; [| split; [discriminate | intros _ Hlt; lia]].
      intros v.
      destruct (Vol.omega (RT1m.RV self)); cbn [bind]; [| discriminate].
      destruct (Vol.tau (RT1m.RV self)); cbn [bind as_float]; discriminate.
    + rewrite Fint_outer_NameError. cbn [bind].
      split; [discriminate |]. split; [discriminate | reflexivity].
  - split; [discriminate |]. split; [reflexivity | intros H; contradiction].
Qed.

(** ** Properties of [LinCombV] objects *)

Lemma eval_weighted_func (env : string -> R) (Vs : list LinComb.Vchoice) (acc : expr) :
  eval env (fold_left (fun acc V => Add acc (Mul (Vol.func (snd V)) (Num (fst V)))) Vs acc)
  = eval env acc + LinComb.Rlist_sum (map (fun V => fst V * eval env (Vol.func (snd V))) Vs).
Proof.
  revert acc. induction Vs as [| V Vs IH]; intros acc; simpl; [ring |].
  rewrite IH. simpl. ring.
Qed.

(** The phase function of a [LinCombV] object is the weighted sum of its
    components' phase functions, at every pair of directions. *)
Theorem LinCombV_p_weighted_sum (Vchoices : list LinComb.Vchoice) (omega tau : option R)
    (V : Vol.Volume) (t_0 t_ex p_0 p_ex : R) :
  LinComb.LinCombV Vchoices omega tau = Ok V ->
  Vol.p V t_0 t_ex p_0 p_ex
  = LinComb.Rlist_sum (map (fun Vc => fst Vc * Vol.p (snd Vc) t_0 t_ex p_0 p_ex) Vchoices).
Proof.
  intros H. unfold LinComb.LinCombV in H.
  destruct (LinComb._Vcombiner omega tau Vchoices) as [c |] eqn:Hc; [| discriminate].
  cbn [bind] in H. inversion H; subst V; clear H.
  unfold LinComb._Vcombiner in Hc.
  destruct (LinComb.assert_almost_equal _ _); [| discriminate]. cbn [bind] in Hc.
  destruct (mapM _ _); [| discriminate]. cbn [bind] in Hc. inversion Hc; subst c.
  unfold Vol.p. cbn [Vol.func]. rewrite eval_weighted_func. simpl. ring.
Qed.

Lemma LinCombV_ok (Vchoices : list LinComb.Vchoice) (omega tau : option R) :
  Rabs (1 - LinComb.weights_sum Vchoices) < 15 / 10 ^ 8 ->
  (forall V, In V Vchoices -> exists c, Vol.legcoefs (snd V) = Some c) ->
  exists V, LinComb.LinCombV Vchoices omega tau = Ok V.
Proof.
  intros Hw Hall. destruct (Vcombiner_ok omega tau Vchoices Hw Hall) as [Vc HVc].
  unfold LinComb.LinCombV. rewrite HVc. cbn [bind]. eexists. reflexivity.
Qed.

Lemma LinCombV_p_weighted_sum_witness :
  exists V : Vol.Volume,
    LinComb.LinCombV [(4/10, example_rayleigh); (6/10, example_hg0)] None None = Ok V
    /\ Vol.p V 1 2 0 3
       = LinComb.Rlist_sum (map (fun Vc => fst Vc * Vol.p (snd Vc) 1 2 0 3)
                                [(4/10, example_rayleigh); (6/10, example_hg0)]).
Proof.
  destruct (LinCombV_ok [(4/10, example_rayleigh); (6/10, example_hg0)] None None) as [V HV].
  - rabs_lra.
  - intros V [<- | [<- | []]]; eexists; reflexivity.
  - exists V. split; [exact HV |].
    apply (LinCombV_p_weighted_sum [(4/10, example_rayleigh); (6/10, example_hg0)]
             None None V 1 2 0 3 HV).
Defined.

Lemma mapM_ext {A B : Type} (f g : A -> outcome B) (l : list A) :
  (forall x, f x = g x) -> mapM f l = mapM g l.
Proof.
  intros H. induction l as [| x l IH]; [reflexivity |]. simpl. rewrite H, IH. reflexivity.
Qed.

(** The expansion of a [LinCombV] object does not use the exit angles
    [t_ex], [p_ex] either, in any geometry. *)
Theorem LinCombV_expansion_never_uses_exit_angles (Vchoices : list LinComb.Vchoice)
    (omega tau : option R) (V : Vol.Volume) (geometry : string)
    (t_0 p_0 t_ex p_ex t_ex' p_ex' : R) :
  LinComb.LinCombV Vchoices omega tau = Ok V ->
  Vol.call_legexpansion V t_0 t_ex p_0 p_ex geometry
  = Vol.call_legexpansion V t_0 t_ex' p_0 p_ex' geometry.
Proof.
  intros H. unfold LinComb.LinCombV in H.
  destruct (LinComb._Vcombiner omega tau Vchoices) as [c3 |] eqn:Hc; [| discriminate].
  cbn [bind] in H. inversion H; subst V; clear H.
  unfold LinComb._Vcombiner in Hc.
  destruct (LinComb.assert_almost_equal _ _); [| discriminate]. cbn [bind] in Hc.
  destruct (mapM _ _) as [ds |]; [| discriminate]. cbn [bind] in Hc. inversion Hc; subst c3.
  unfold Vol.call_legexpansion. cbn [Vol.legexpansion_attr].
  unfold LinComb.combined_legexpansion.
  rewrite (mapM_ext (fun Vd => Vol.legexpansion Vd t_0 t_ex p_0 p_ex geometry)
                    (fun Vd => Vol.legexpansion Vd t_0 t_ex' p_0 p_ex' geometry))
    by (intros Vd; apply legexpansion_never_uses_exit_angles).
  reflexivity.
Qed.

Lemma LinCombV_expansion_never_uses_exit_angles_witness :
  exists V : Vol.Volume,
    LinComb.LinCombV [(4/10, example_rayleigh); (6/10, example_hg0)] None None = Ok V
    /\ Vol.call_legexpansion V 1 2 0 3 "ffff" = Vol.call_legexpansion V 1 5 0 (-1) "ffff".
Proof.
  destruct (LinCombV_ok [(4/10, example_rayleigh); (6/10, example_hg0)] None None) as [V HV].
  - rabs_lra.
  - intros V [<- | [<- | []]]; eexists; reflexivity.
  - exists V. split; [exact HV |].
    apply (LinCombV_expansion_never_uses_exit_angles
             [(4/10, example_rayleigh); (6/10, example_hg0)] None None V "ffff" 1 0 2 3 5 (-1) HV).
Defined.

Lemma rsum_plus (f g : nat -> R) (n : nat) :
  rsum (fun i => f i + g i) n = rsum f n + rsum g n.
Proof. induction n as [| n IH]; simpl; [ring | rewrite IH; ring]. Qed.

Lemma rsum_scal (k : R) (f : nat -> R) (n : nat) :
  rsum (fun i => k * f i) n = k * rsum f n.
Proof. induction n as [| n IH]; simpl; [ring | rewrite IH; ring]. Qed.

Lemma rsum_Rlist_sum {A : Type} (l : list A) (f : A -> nat -> R) (n : nat) :
  rsum (fun i => LinComb.Rlist_sum (map (fun x => f x i) l)) n
  = LinComb.Rlist_sum (map (fun x => rsum (f x) n) l).
Proof.
  induction l as [| x l IH]; simpl.
  - induction n as [| n IHn]; simpl; [reflexivity | rewrite IHn; ring].
  - rewrite rsum_plus, IH. reflexivity.
Qed.

(** Each class of a [LinCombV] is expanded up to the largest [ncoefs] of
    its members, and every member's closed-form coefficients are used up to
    that length: the class expansion is the weighted sum of the members'
    series all truncated at the class maximum, not at their own [ncoefs]
    (no zero padding). *)
Theorem class_expansion_truncated_at_class_max (Vchoices : list LinComb.Vchoice)
    (cls : list nat) (Vd : Vol.Volume) (t_0 t_ex p_0 p_ex : R) (geometry : string) (e : expr) :
  LinComb.class_dummy Vchoices cls = Ok Vd ->
  Vol.legexpansion Vd t_0 t_ex p_0 p_ex geometry = Ok e ->
  exists Vequal theta_0 theta_ex phi_0 phi_ex,
    LinComb.np_take Vchoices cls = Ok Vequal
    /\ Vol.ncoefs Vd = LinComb.max_ncoefs Vequal
    /\ Vol.resolve_geometry geometry t_0 t_ex p_0 p_ex = Ok (theta_0, theta_ex, phi_0, phi_ex)
    /\ forall env : string -> R,
         eval env e
         = LinComb.Rlist_sum
             (map (fun V => fst V * rsum (fun n => LinComb.coef_at (snd V) n * legendreP n
                      (eval env (scat_angle (Sub Pi theta_0) (Symbol "theta_s") phi_0
                                            (Symbol "phi_s") (Vol.a Vd))))
                                        (LinComb.max_ncoefs Vequal))
                  Vequal).
Proof.
  intros Hd He. unfold LinComb.class_dummy in Hd.
  destruct (LinComb.np_take Vchoices cls) as [Vequal |] eqn:Ht; [| discriminate].
  cbn [bind] in Hd.
  apply add_members_spec with (c0 := fun _ => 0) in Hd; [| reflexivity].
  destruct Hd as (Hn & (c & Hc & Hcn) & _).
  cbn [Vol.ncoefs LinComb.Phasefunction] in Hn.
  unfold Vol.legexpansion, Vol.get_legcoefs in He. rewrite Hc in He.
  destruct (Nat.ltb 0 (Vol.ncoefs Vd)) eqn:Hlt; [| discriminate].
  apply Nat.ltb_lt in Hlt.
  destruct (Vol.resolve_geometry geometry t_0 t_ex p_0 p_ex)
    as [[[[theta_0 theta_ex] phi_0] phi_ex] |]; [| discriminate].
  cbn [bind] in He. inversion He; subst e; clear He.
  exists Vequal, theta_0, theta_ex, phi_0, phi_ex.
  split; [reflexivity |]. split; [exact Hn |]. split; [reflexivity |].
  intros env. rewrite eval_Sum.
  replace (S (Vol.ncoefs Vd - 1) - 0)%nat with (LinComb.max_ncoefs Vequal) by lia.
  set (x := eval env (scat_angle (Sub Pi theta_0) (Symbol "theta_s") phi_0
                                 (Symbol "phi_s") (Vol.a Vd))).
  transitivity (rsum (fun n => LinComb.Rlist_sum
                   (map (fun V => fst V * (LinComb.coef_at (snd V) n * legendreP n x)) Vequal))
                (LinComb.max_ncoefs Vequal)).
  - apply rsum_ext. intros n. cbn [eval]. rewrite Nat.add_0_l, Hcn. fold x.
    clear. induction Vequal as [| V Vs IH]; simpl; [ring |].
    rewrite <- IH. ring.
  - rewrite (rsum_Rlist_sum Vequal
               (fun V n => fst V * (LinComb.coef_at (snd V) n * legendreP n x))).
    f_equal. apply map_ext. intros V. apply rsum_scal.
Qed.

Lemma class_expansion_truncated_at_class_max_witness :
  exists (Vd : Vol.Volume) (e : expr) (Vequal : list LinComb.Vchoice),
    LinComb.class_dummy [(4/10, example_rayleigh); (6/10, example_hg0)] [0; 1]%nat = Ok Vd
    /\ Vol.legexpansion Vd 1 2 0 3 "ffff" = Ok e
    /\ LinComb.np_take [(4/10, example_rayleigh); (6/10, example_hg0)] [0; 1]%nat = Ok Vequal
    /\ Vol.ncoefs Vd = LinComb.max_ncoefs Vequal.
Proof.
  lazymatch eval hnf in
    (LinComb.class_dummy [(4/10, example_rayleigh); (6/10, example_hg0)] [0; 1]%nat) with
  | Ok ?v =>
      lazymatch eval hnf in (Vol.legexpansion v 1 2 0 3 "ffff") with
      | Ok ?x =>
          exists v, x;
          assert (Hd : LinComb.class_dummy [(4/10, example_rayleigh); (6/10, example_hg0)]
                         [0; 1]%nat = Ok v) by reflexivity;
          assert (He : Vol.legexpansion v 1 2 0 3 "ffff" = Ok x) by reflexivity
      end
  end.
  destruct (class_expansion_truncated_at_class_max
              [(4/10, example_rayleigh); (6/10, example_hg0)] [0; 1]%nat _ 1 2 0 3 "ffff" _ Hd He)
    as (Vequal & _ & _ & _ & _ & Ht & Hn & _ & _).
  exists Vequal. split; [exact Hd |]. split; [exact He |]. split; [exact Ht | exact Hn].
Defined.
